(** * vocab: kana engine and sentence pipeline

  A shallow embedding of [vocab/inflections.py] and
  [vocab/sentence_parser.py].

  Python strings are sequences of Unicode code points; a character is a
  string of length one.  Exceptions are modelled by a [result] type whose
  error side names the Python exception class that is raised. *)

From Stdlib Require Import String Ascii NArith ZArith Bool List Lia.
Import ListNotations.

Local Open Scope N_scope.

(** ** Python strings *)

Module PyStr.

Definition char := N.
Definition str := list char.

(** An ASCII literal as a Python string. *)
Fixpoint lit (s : string) : str :=
  match s with
  | EmptyString => []
  | String a s' => N_of_ascii a :: lit s'
  end.

Fixpoint eqb (a b : str) : bool :=
  match a, b with
  | [], [] => true
  | x :: a', y :: b' => (x =? y) && eqb a' b'
  | _, _ => false
  end.

Fixpoint startswith (s p : str) : bool :=
  match p, s with
  | [], _ => true
  | y :: p', x :: s' => (x =? y) && startswith s' p'
  | _ :: _, [] => false
  end.

(** [needle in hay] on strings: the substring test. *)
Fixpoint contains (hay needle : str) : bool :=
  startswith hay needle ||
  match hay with
  | [] => false
  | _ :: hay' => contains hay' needle
  end.

Definition len (s : str) : Z := Z.of_nat (length s).

(** [s[:-1]] *)
Definition init (s : str) : str := firstn (length s - 1) s.

(** [s[n:]] for [n >= 0] *)
Definition from (n : nat) (s : str) : str := skipn n s.

Definition join (l : list str) : str := concat l.

End PyStr.

Import PyStr.

(** ** Exceptions *)

Inductive exn : Type :=
| ValueError (msg : string)
| KeyError
| IndexError
| AttributeError
| TypeError
| NotImplementedError.

Inductive result (A : Type) : Type :=
| Ok (a : A)
| Raise (e : exn).

Arguments Ok {A} a.
Arguments Raise {A} e.

Definition bind {A B} (r : result A) (k : A -> result B) : result B :=
  match r with
  | Ok a => k a
  | Raise e => Raise e
  end.

Notation "x <- r ;; k" := (bind r (fun x => k))
  (at level 61, r at next level, right associativity).

(** [try: body except KeyError: raise e] *)
Definition except_KeyError {A} (body : result A) (e : exn) : result A :=
  match body with
  | Raise KeyError => Raise e
  | r => r
  end.

(** [s[i]], with Python's negative indices. *)
Definition index (s : str) (i : Z) : result str :=
  let j := (if i <? 0 then i + len s else i)%Z in
  if (j <? 0)%Z then Raise IndexError
  else match nth_error s (Z.to_nat j) with
       | Some c => Ok [c]
       | None => Raise IndexError
       end.

(** ** Dictionaries with string keys, in insertion order *)

Module Dict.

Definition t (V : Type) := list (str * V).

Fixpoint get {V} (d : t V) (k : str) : result V :=
  match d with
  | [] => Raise KeyError
  | (k', v) :: d' => if PyStr.eqb k' k then Ok v else get d' k
  end.

(** [d[k] = v] *)
Fixpoint set {V} (d : t V) (k : str) (v : V) : t V :=
  match d with
  | [] => [(k, v)]
  | (k', v') :: d' =>
      if PyStr.eqb k' k then (k', v) :: d' else (k', v') :: set d' k v
  end.

Definition keys {V} (d : t V) : list str := map fst d.
Definition values {V} (d : t V) : list V := map snd d.
Definition items {V} (d : t V) : list (str * V) := d.

End Dict.

(** [x in l] for a list of strings *)
Definition mem (x : str) (l : list str) : bool := existsb (PyStr.eqb x) l.

(** ** Regular expressions of [JpRE] *)

Module JpRE.

(** A character class made of code-point ranges. *)
Definition class := list (char * char).

Definition in_class (cl : class) (c : char) : bool :=
  existsb (fun r => (fst r <=? c) && (c <=? snd r)) cl.

Definition hiragana_full : class := [(0x3041, 0x309f)].
Definition katakana_full : class := [(0x30a0, 0x30ff)].
Definition kanji : class :=
  [(0x3400, 0x4db5); (0x4e00, 0x9fcb); (0xf900, 0xfa6a)].
Definition radicals : class := [(0x2e80, 0x2fd5)].
Definition katakana_half_width : class := [(0xff5f, 0xff9f)].

(** [\s] on [str] patterns: the code points Python counts as white space. *)
Definition whitespace : class :=
  [(0x9, 0xd); (0x1c, 0x20); (0x85, 0x85); (0xa0, 0xa0); (0x1680, 0x1680);
   (0x2000, 0x200a); (0x2028, 0x2029); (0x202f, 0x202f); (0x205f, 0x205f);
   (0x3000, 0x3000)].

(** [re.match(cl, s) is not None] for a one-class pattern: the class must
    match the first character of [s]. *)
Definition match_class (cl : class) (s : str) : bool :=
  match s with
  | [] => false
  | c :: _ => in_class cl c
  end.

(** The longest prefix of [s] made of characters of [cl]: the greedy [cl*]. *)
Fixpoint star (cl : class) (s : str) : str :=
  match s with
  | [] => []
  | c :: s' => if in_class cl c then c :: star cl s' else []
  end.

End JpRE.

(** ** Character classification *)

Definition is_kanji (c : str) : bool := JpRE.match_class JpRE.kanji c.

Definition is_whitespace (c : str) : bool := JpRE.match_class JpRE.whitespace c.

(** The Hiragana block of Unicode, U+3040 to U+309F. *)
Definition hiragana_block : JpRE.class := [(0x3040, 0x309f)].

(** Modelled from the spec: [is_hiragana] is imported by [inflections.py]
  from [sentence_parser], which does not define it (see [PyImport] below).
  The spec has it true iff the character falls in the Hiragana block of
  Unicode; the shape is that of [is_kanji].  It stands for the function
  [from_str] was written against. *)
Definition is_hiragana (c : str) : bool := JpRE.match_class hiragana_block c.

(** ** Module names and [from ... import ...] *)

Module PyImport.

(** What a [from module import a, b, ...] statement does once the module
    is loaded. *)
Inductive outcome : Type :=
| Imported
| ImportError (name : string).

(** The names [sentence_parser.py] binds at module level, in the order of
    the file: its two imports, [JpRE], [SPACE], the three classes and the
    seven functions. *)
Definition sentence_parser : list string :=
  ["re"; "Markup"; "JpRE"; "SPACE"; "KanjiSequence"; "Kanji"; "Furigana";
   "is_kanji"; "is_whitespace"; "charseq"; "group"; "parse"; "render_obj";
   "render_jp"]%string.

Definition binds (module_names : list string) (name : string) : bool :=
  existsb (String.eqb name) module_names.

(** The names are looked up from left to right; the first one the module
    does not bind raises [ImportError]. *)
Fixpoint from_import (module_names wanted : list string) : outcome :=
  match wanted with
  | [] => Imported
  | name :: rest =>
      if binds module_names name then from_import module_names rest
      else ImportError name
  end.

(** Line 1 of [inflections.py]:
    [from vocab.sentence_parser import is_hiragana, is_kanji]. *)
Definition inflections_line_1 : list string := ["is_hiragana"; "is_kanji"]%string.

End PyImport.

(** ** Glyphs *)

Module Glyph.
Definition a : str := [0x3042].
Definition i : str := [0x3044].
Definition u : str := [0x3046].
Definition e : str := [0x3048].
Definition o : str := [0x304a].
Definition ka : str := [0x304b].
Definition ki : str := [0x304d].
Definition ku : str := [0x304f].
Definition ke : str := [0x3051].
Definition ko : str := [0x3053].
Definition ga : str := [0x304c].
Definition gi : str := [0x304e].
Definition gu : str := [0x3050].
Definition ge : str := [0x3052].
Definition go : str := [0x3054].
Definition sa : str := [0x3055].
Definition shi : str := [0x3057].
Definition su : str := [0x3059].
Definition se : str := [0x305b].
Definition so : str := [0x305d].
Definition za : str := [0x3056].
Definition ji : str := [0x3058].
Definition zu : str := [0x305a].
Definition ze : str := [0x305c].
Definition zo : str := [0x305e].
Definition ta : str := [0x305f].
Definition chi : str := [0x3061].
Definition tsu : str := [0x3064].
Definition te : str := [0x3066].
Definition to : str := [0x3068].
Definition da : str := [0x3060].
Definition dji : str := [0x3062].
Definition dzu : str := [0x3065].
Definition de : str := [0x3067].
Definition do : str := [0x3069].
Definition na : str := [0x306a].
Definition ni : str := [0x306b].
Definition nu : str := [0x306c].
Definition ne : str := [0x306d].
Definition no : str := [0x306e].
Definition ha : str := [0x306f].
Definition hi : str := [0x3072].
Definition fu : str := [0x3075].
Definition he : str := [0x3078].
Definition ho : str := [0x307b].
Definition ba : str := [0x3070].
Definition bi : str := [0x3073].
Definition bu : str := [0x3076].
Definition be : str := [0x3079].
Definition bo : str := [0x307c].
Definition pa : str := [0x3071].
Definition pi : str := [0x3074].
Definition pu : str := [0x3077].
Definition pe : str := [0x307a].
Definition po : str := [0x307d].
Definition ma : str := [0x307e].
Definition mi : str := [0x307f].
Definition mu : str := [0x3080].
Definition me : str := [0x3081].
Definition mo : str := [0x3082].
Definition ra : str := [0x3089].
Definition ri : str := [0x308a].
Definition ru : str := [0x308b].
Definition re : str := [0x308c].
Definition ro : str := [0x308d].
Definition ya : str := [0x3084].
Definition yu : str := [0x3086].
Definition yo : str := [0x3088].
Definition wa : str := [0x308f].
Definition wo : str := [0x3092].
Definition nn : str := [0x3093].
Definition small_ya : str := [0x3083].
Definition small_yu : str := [0x3085].
Definition small_yo : str := [0x3087].
Definition small_tsu : str := [0x3063].
Definition kanji_miru : str := [0x898b]. (* 見 *)
Definition kanji_nomu : str := [0x98f2]. (* 飲 *)
Definition kanji_taberu : str := [0x98df]. (* 食 *)
Definition kanji_nichi : str := [0x65e5]. (* 日 *)
Definition kanji_hon : str := [0x672c]. (* 本 *)
Definition kanji_go : str := [0x8a9e]. (* 語 *)
End Glyph.

(** ** [inflections.py]: the kana table *)

Inductive VerbType : Type := ICHIDAN | GODAN | IRREGULAR.

Module HiraganaLetter.

Definition rows : Dict.t (Dict.t str) :=
  [ (lit "-", [(lit "a", Glyph.a); (lit "i", Glyph.i); (lit "u", Glyph.u); (lit "e", Glyph.e); (lit "o", Glyph.o)]);
    (lit "k", [(lit "a", Glyph.ka); (lit "i", Glyph.ki); (lit "u", Glyph.ku); (lit "e", Glyph.ke); (lit "o", Glyph.ko)]);
    (lit "g", [(lit "a", Glyph.ga); (lit "i", Glyph.gi); (lit "u", Glyph.gu); (lit "e", Glyph.ge); (lit "o", Glyph.go)]);
    (lit "s", [(lit "a", Glyph.sa); (lit "i", Glyph.shi); (lit "u", Glyph.su); (lit "e", Glyph.se); (lit "o", Glyph.so)]);
    (lit "z", [(lit "a", Glyph.za); (lit "i", Glyph.ji); (lit "u", Glyph.zu); (lit "e", Glyph.ze); (lit "o", Glyph.zo)]);
    (lit "t", [(lit "a", Glyph.ta); (lit "i", Glyph.chi); (lit "u", Glyph.tsu); (lit "e", Glyph.te); (lit "o", Glyph.to)]);
    (lit "d", [(lit "a", Glyph.da); (lit "i", Glyph.dji); (lit "u", Glyph.dzu); (lit "e", Glyph.de); (lit "o", Glyph.do)]);
    (lit "n", [(lit "a", Glyph.na); (lit "i", Glyph.ni); (lit "u", Glyph.nu); (lit "e", Glyph.ne); (lit "o", Glyph.no)]);
    (lit "h", [(lit "a", Glyph.ha); (lit "i", Glyph.hi); (lit "u", Glyph.fu); (lit "e", Glyph.he); (lit "o", Glyph.ho)]);
    (lit "b", [(lit "a", Glyph.ba); (lit "i", Glyph.bi); (lit "u", Glyph.bu); (lit "e", Glyph.be); (lit "o", Glyph.bo)]);
    (lit "p", [(lit "a", Glyph.pa); (lit "i", Glyph.pi); (lit "u", Glyph.pu); (lit "e", Glyph.pe); (lit "o", Glyph.po)]);
    (lit "m", [(lit "a", Glyph.ma); (lit "i", Glyph.mi); (lit "u", Glyph.mu); (lit "e", Glyph.me); (lit "o", Glyph.mo)]);
    (lit "r", [(lit "a", Glyph.ra); (lit "i", Glyph.ri); (lit "u", Glyph.ru); (lit "e", Glyph.re); (lit "o", Glyph.ro)]);
    (lit "y", [(lit "a", Glyph.ya); (lit "u", Glyph.yu); (lit "o", Glyph.yo)]);
    (lit "w", [(lit "a", Glyph.wa); (lit "o", Glyph.wo)]);
    (lit "nn", [(lit "n", Glyph.nn)]) ].

Definition small : Dict.t str :=
  [ (lit "ya", Glyph.small_ya); (lit "yu", Glyph.small_yu);
    (lit "yo", Glyph.small_yo); (lit "tsu", Glyph.small_tsu) ].

Definition dakuten_rules : Dict.t str :=
  [ (lit "k", lit "g"); (lit "s", lit "z"); (lit "t", lit "d"); (lit "h", lit "b") ].

Definition handakuten_rules : Dict.t str := [ (lit "h", lit "p") ].

(** [{v: k for k, v in chain(dakuten_rules.items(), handakuten_rules.items())}] *)
Definition reverse_dakuten_rules : Dict.t str :=
  fold_left (fun d kv => Dict.set d (snd kv) (fst kv))
    (Dict.items dakuten_rules ++ Dict.items handakuten_rules) [].

(** The loop that fills [by_letter]:
    [for row_name, row in rows.items(): for ending, letter in row.items():
       by_letter[letter] = (row_name, ending)] *)
Definition by_letter : Dict.t (str * str) :=
  fold_left
    (fun d (r : str * Dict.t str) =>
       let (row_name, row) := r in
       fold_left
         (fun d' (el : str * str) =>
            let (ending, letter) := el in Dict.set d' letter (row_name, ending))
         (Dict.items row) d)
    (Dict.items rows) [].

(** The object: [c], [row], [ending] and [dakuten] (one of the
    strings dakuten and handakuten, or [None]). *)
Record t : Type := mk {
  c : str;
  row : str;
  ending : str;
  dakuten : option str
}.

(** [HiraganaLetter(c)] *)
Definition new (c : str) : result t :=
  re <- Dict.get by_letter c ;;
  let (row, ending) := (re : str * str) in
  let dakuten :=
    if mem row (Dict.values dakuten_rules) then Some (lit "dakuten")
    else if mem row (Dict.values handakuten_rules) then Some (lit "handakuten")
    else None in
  Ok (mk c row ending dakuten).

(** [rows[row][ending]], where [row] may be [None] *)
Definition rows_at (row : option str) (ending : option str) : result str :=
  match row with
  | None => Raise KeyError
  | Some r =>
      d <- Dict.get rows r ;;
      match ending with
      | None => Raise KeyError
      | Some e => Dict.get d e
      end
  end.

Definition from_str (s : str) : result t :=
  if (len s =? 1)%Z && is_hiragana s then new s
  else
    let romaji := s in
    if (len romaji =? 0)%Z then Raise (ValueError "empty romaji")
    else
      re <-
        (if PyStr.eqb romaji (lit "shi") then Ok (Some (lit "s"), Some (lit "i"))
         else if PyStr.eqb romaji (lit "chi") then Ok (Some (lit "t"), Some (lit "i"))
         else if PyStr.eqb romaji (lit "tsu") then Ok (Some (lit "t"), Some (lit "u"))
         else if PyStr.eqb romaji (lit "fu") then Ok (Some (lit "h"), Some (lit "u"))
         else if PyStr.eqb romaji (lit "ji") then Ok (Some (lit "z"), Some (lit "i"))
         else if PyStr.eqb romaji (lit "n") then Ok (Some (lit "nn"), Some (lit "n"))
         else if (len romaji =? 1)%Z then Ok (Some (lit "-"), Some romaji)
         else if (len romaji =? 2)%Z then
           r0 <- index romaji 0 ;; r1 <- index romaji 1 ;; Ok (Some r0, Some r1)
         else Ok (None, None)) ;;
      let (row, ending) := (re : option str * option str) in
      except_KeyError
        (letter <- rows_at row ending ;; new letter)
        (ValueError "Cannot transform to a kana letter").

Definition with_ending (self : t) (ending : str) : result t :=
  if negb (contains (lit "aiueo") ending)
  then Raise (ValueError "Ending must be one of 'aiueo'")
  else letter <- rows_at (Some (row self)) (Some ending) ;; new letter.

Definition romaji (self : t) : str :=
  if PyStr.eqb (c self) Glyph.shi then lit "shi"
  else if PyStr.eqb (c self) Glyph.chi then lit "chi"
  else if PyStr.eqb (c self) Glyph.tsu then lit "tsu"
  else if PyStr.eqb (c self) Glyph.fu then lit "fu"
  else if PyStr.eqb (c self) Glyph.ji then lit "ji"
  else if PyStr.eqb (c self) Glyph.dji then lit "ji"
  else if PyStr.eqb (c self) Glyph.dzu then lit "zu"
  else join [row self; ending self].

End HiraganaLetter.

(** ** [inflections.py]: verbs *)

Definition has_ichidan_ending (verb : str) : result (option bool) :=
  if (len verb <? 2)%Z then Ok (Some false)
  else
    v2 <- index verb (-2) ;;
    v1 <- index verb (-1) ;;
    if is_kanji v2 && PyStr.eqb v1 Glyph.ru then Ok None
    else
      l <- HiraganaLetter.new v2 ;;
      Ok (Some (contains (lit "ie") (HiraganaLetter.ending l) && PyStr.eqb v1 Glyph.ru)).

(** Python truthiness of the value [has_ichidan_ending] returns *)
Definition truthy (b : option bool) : bool :=
  match b with
  | Some true => true
  | _ => false
  end.

Module Inflections.

Inductive inflection : Type := POLITE | PAST | TE | POTENTIAL.

Definition valid_endings : str :=
  Glyph.ru ++ Glyph.tsu ++ Glyph.u ++ Glyph.ku ++ Glyph.su ++
  Glyph.bu ++ Glyph.mu ++ Glyph.nu ++ Glyph.gu.

Record t : Type := mk {
  base_verb : str;
  verb_type : VerbType;
  applied_inflections : list inflection;
  inflection_ : option inflection
}.

Definition is_ICHIDAN (v : VerbType) : bool :=
  match v with ICHIDAN => true | _ => false end.

(** [Inflections(base_verb, verb_type, applied_inflections, inflection)];
    [base_verb] is [None] when the outer option is. *)
Definition new (base_verb : option str) (verb_type : VerbType)
    (applied_inflections : option (list inflection))
    (inflection : option inflection) : result t :=
  match base_verb with
  | None => Raise (ValueError "Verb is empty or too short")
  | Some base_verb =>
      if (len base_verb <=? 1)%Z then Raise (ValueError "Verb is empty or too short")
      else
        last <- index base_verb (-1) ;;
        if negb (contains valid_endings last)
        then Raise (ValueError "Final kana letter is no valid verb ending")
        else
          guard <-
            (if is_ICHIDAN verb_type
             then h <- has_ichidan_ending base_verb ;; Ok (negb (truthy h))
             else Ok false) ;;
          if (guard : bool) then Raise (ValueError "verb has no ichidan ending")
          else
            let applied :=
              match applied_inflections with
              | None => []
              | Some s => s
              end in
            if negb (length applied =? 0)%nat &&
               match inflection with Some _ => true | None => false end
            then Raise (ValueError "`inflection` must be `None` when no inflections are applied")
            else Ok (mk base_verb verb_type applied inflection)
  end.

Definition te (self : t) : result str :=
  match verb_type self with
  | ICHIDAN => Ok (PyStr.init (base_verb self) ++ Glyph.te)
  | GODAN =>
      last <- index (base_verb self) (-1) ;;
      if contains (Glyph.u ++ Glyph.tsu ++ Glyph.ru) last
      then Ok (PyStr.init (base_verb self) ++ Glyph.small_tsu ++ Glyph.te)
      else if contains Glyph.ku last
      then Ok (PyStr.init (base_verb self) ++ Glyph.i ++ Glyph.te)
      else if contains Glyph.su last
      then Ok (PyStr.init (base_verb self) ++ Glyph.shi ++ Glyph.te)
      else if contains (Glyph.bu ++ Glyph.mu ++ Glyph.nu) last
      then Ok (PyStr.init (base_verb self) ++ Glyph.nn ++ Glyph.de)
      else if contains Glyph.gu last
      then Ok (PyStr.init (base_verb self) ++ Glyph.i ++ Glyph.de)
      else Raise (ValueError "invalid verb ending")
  | IRREGULAR => Raise NotImplementedError
  end.

Definition masu (self : t) : result str :=
  match verb_type self with
  | ICHIDAN => Ok (PyStr.init (base_verb self) ++ Glyph.ma ++ Glyph.su)
  | GODAN =>
      last <- index (base_verb self) (-1) ;;
      l <- HiraganaLetter.from_str last ;;
      l' <- HiraganaLetter.with_ending l (lit "i") ;;
      Ok (PyStr.init (base_verb self) ++ HiraganaLetter.c l' ++ Glyph.ma ++ Glyph.su)
  | IRREGULAR => Raise NotImplementedError
  end.

End Inflections.

(** ** [sentence_parser.py]: objects *)

(** The values that flow through the parser: [str], [Kanji], [Furigana],
    the [SPACE] marker, [KanjiSequence], and [Other], an object of another
    type that is equal to nothing but itself, as an object whose class
    defines no [__eq__] is.  An object whose own [__eq__] decides the
    comparison with [SPACE] is not part of the model. *)
#[warnings="-register-all"]
Inductive obj : Type :=
| Str (s : str)
| Kanji (character : str)
| Furigana (text : str)
| SPACE
| KanjiSequence (kanji : list obj) (furigana : option obj)
| Other.

(** [Kanji.jisho_link] *)
Definition jisho_link (character : str) : str :=
  lit "https://jisho.org/search/" ++ character ++ lit "%20%23kanji".

(** [o.text] *)
Definition attr_text (o : obj) : result str :=
  match o with
  | Furigana text => Ok text
  | _ => Raise AttributeError
  end.

Definition dquote : str := [34].

Definition ruby (body text : str) : str :=
  lit "<ruby>" ++ body ++ lit "<rt>" ++ text ++ lit "</rt><ruby>".

(** [o.render()]: only [KanjiSequence] has the method. *)
Fixpoint render_method (o : obj) : result str :=
  match o with
  | KanjiSequence kanji furigana =>
      body <-
        (fix each (l : list obj) : result str :=
           match l with
           | [] => Ok []
           | k :: l' => r <- render_method k ;; rs <- each l' ;; Ok (r ++ rs)
           end) kanji ;;
      match furigana with
      | None => Ok body
      | Some f => text <- attr_text f ;; Ok (ruby body text)
      end
  | _ => Raise AttributeError
  end.

Definition anchor (character : str) : str :=
  lit "<a href=" ++ dquote ++ jisho_link character ++ dquote ++ lit ">" ++
  character ++ lit "</a>".

Fixpoint render_obj (o : obj) : result str :=
  match o with
  | Str s => Ok s
  | Kanji character => Ok (anchor character)
  | KanjiSequence kanji furigana =>
      body <-
        (fix each (l : list obj) : result str :=
           match l with
           | [] => Ok []
           | k :: l' => r <- render_obj k ;; rs <- each l' ;; Ok (r ++ rs)
           end) kanji ;;
      match furigana with
      | None => Ok body
      | Some f => text <- attr_text f ;; Ok (ruby body text)
      end
  | SPACE => Ok (lit "&nbsp;")
  | _ => Raise (ValueError "Cannot render object")
  end.

(** The join of [[f(x) for x in l]] for a function that may raise *)
Definition join_map (f : obj -> result str) : list obj -> result str :=
  fix each (l : list obj) : result str :=
    match l with
    | [] => Ok []
    | k :: l' => r <- f k ;; rs <- each l' ;; Ok (r ++ rs)
    end.

(** ** [sentence_parser.py]: the grouper *)

Fixpoint charseq (buf : list obj) : result str :=
  match buf with
  | [] => Ok []
  | Str c :: buf' =>
      rest <- charseq buf' ;;
      Ok (if negb (is_whitespace c) then c ++ rest else rest)
  | _ :: _ => Raise TypeError
  end.

Module Group.

Inductive state_name : Type := empty | buffer_str | buffer_kan.

Record locals : Type := mk {
  state : state_name;
  groups : list obj;
  buf : list obj
}.

Definition start : locals := mk empty [] [].

(** One turn of [for token in tokens]. *)
Definition step (l : locals) (token : obj) : result locals :=
  match state l with
  | empty =>
      match token with
      | Str _ => Ok (mk buffer_str (groups l) [token])
      | Kanji _ => Ok (mk buffer_kan (groups l) [token])
      | SPACE => Ok (mk empty (groups l ++ [SPACE]) (buf l))
      | Furigana _ => Ok l
      | _ => Raise (ValueError "invalid state")
      end
  | buffer_str =>
      match token with
      | Str _ => Ok (mk buffer_str (groups l) (buf l ++ [token]))
      | Kanji _ =>
          s <- charseq (buf l) ;;
          Ok (mk buffer_kan (groups l ++ [Str s]) [token])
      | SPACE =>
          s <- charseq (buf l) ;;
          Ok (mk empty (groups l ++ [Str s] ++ [SPACE]) [])
      | Furigana _ => Ok l
      | _ => Raise (ValueError "invalid state")
      end
  | buffer_kan =>
      match token with
      | Str _ =>
          Ok (mk buffer_str (groups l ++ [KanjiSequence (buf l) None]) [token])
      | Kanji _ => Ok (mk buffer_kan (groups l) (buf l ++ [token]))
      | Furigana _ =>
          Ok (mk empty (groups l ++ [KanjiSequence (buf l) (Some token)]) [])
      | SPACE =>
          Ok (mk empty (groups l ++ [KanjiSequence (buf l) None] ++ [SPACE]) [])
      | _ => Raise (ValueError "invalid state")
      end
  end.

Fixpoint loop (l : locals) (tokens : list obj) : result locals :=
  match tokens with
  | [] => Ok l
  | token :: tokens' => l' <- step l token ;; loop l' tokens'
  end.

(** The flush after the loop. *)
Definition finish (l : locals) : result (list obj) :=
  match state l with
  | empty => Ok (groups l)
  | buffer_str => s <- charseq (buf l) ;; Ok (groups l ++ [Str s])
  | buffer_kan => Ok (groups l ++ [KanjiSequence (buf l) None])
  end.

End Group.

Definition group (tokens : list obj) : result (list obj) :=
  l <- Group.loop Group.start tokens ;; Group.finish l.

(** ** [sentence_parser.py]: the lexer *)

Record furigana_match : Type := mk_match {
  group0 : str;
  group_furigana : str
}.

(** The [re.search] of the caret pattern in [parse]: anchored at the start
    of [text], a caret and then the longest run of hiragana (the named group
    [furigana]). *)
Definition search_furigana (text : str) : option furigana_match :=
  match text with
  | c :: rest =>
      if c =? 0x5e
      then let run := JpRE.star JpRE.hiragana_full rest in
           Some (mk_match (c :: run) run)
      else None
  | [] => None
  end.

(** The [while len(text) != 0] loop; [None] when [fuel] turns run out. *)
Fixpoint parse_loop (fuel : nat) (text : str) (parsed_sequence : list obj)
  : option (result (list obj)) :=
  if negb (len text =? 0)%Z then
    match fuel with
    | O => None
    | S fuel' =>
        match index text 0 with
        | Raise e => Some (Raise e)
        | Ok text0 =>
            if is_kanji text0
            then parse_loop fuel' (PyStr.from 1 text) (parsed_sequence ++ [Kanji text0])
            else if PyStr.eqb text0 (lit "^")
            then match search_furigana text with
                 | Some m =>
                     parse_loop fuel' (PyStr.from (length (group0 m)) text)
                       (parsed_sequence ++ [Furigana (group_furigana m)])
                 | None => Some (Raise (ValueError "no match"))
                 end
            else if PyStr.eqb text0 (lit "~")
            then parse_loop fuel' (PyStr.from 1 text) (parsed_sequence ++ [SPACE])
            else parse_loop fuel' (PyStr.from 1 text) (parsed_sequence ++ [Str text0])
        end
    end
  else Some (Ok parsed_sequence).

(** [parse(text)]: each turn shortens [text], so [length text] turns are
    enough (see [parse_loop_total]). *)
Definition parse (text : str) : option (result (list obj)) :=
  parse_loop (length text) text [].

Definition render_jp (text : str) : option (result str) :=
  match parse text with
  | None => None
  | Some r => Some (toks <- r ;; gs <- group toks ;; join_map render_obj gs)
  end.

(** ** The rules as the spec words them *)

(** The te-form endings of godan verbs: the final characters and the suffix
    that replaces them. *)
Definition godan_te_rules : list (list str * str) :=
  [ ([Glyph.u; Glyph.tsu; Glyph.ru], Glyph.small_tsu ++ Glyph.te);
    ([Glyph.ku], Glyph.i ++ Glyph.te);
    ([Glyph.su], Glyph.shi ++ Glyph.te);
    ([Glyph.bu; Glyph.mu; Glyph.nu], Glyph.nn ++ Glyph.de);
    ([Glyph.gu], Glyph.i ++ Glyph.de) ].

Definition godan_te_rule (last : str) : option str :=
  option_map snd (find (fun r : list str * str => mem last (fst r)) godan_te_rules).

(** The nine dictionary-form endings. *)
Definition nine_endings : list str :=
  [Glyph.ru; Glyph.tsu; Glyph.u; Glyph.ku; Glyph.su; Glyph.bu; Glyph.mu;
   Glyph.nu; Glyph.gu].

(** A kanji run with furigana as the spec words it: the plain glyphs under
    the ruby annotation. *)
Definition plain_ruby (chars : list str) (text : str) : str :=
  ruby (join chars) text.

(** The four kinds of token the lexer makes. *)
Definition is_token (o : obj) : Prop :=
  match o with
  | Str _ | Kanji _ | Furigana _ | SPACE => True
  | _ => False
  end.

Definition is_Str (o : obj) : Prop :=
  match o with
  | Str _ => True
  | _ => False
  end.

(** ** Ranges, table entries and invariants used in the statements *)

(** The glyphs of [rows], each with its row and its column, in table order. *)
Definition forward_entries : list (str * str * str) :=
  flat_map (fun r : str * Dict.t str =>
              map (fun el : str * str => (fst r, fst el, snd el)) (Dict.items (snd r)))
    (Dict.items HiraganaLetter.rows).

Definition glyphs : list str := Dict.keys HiraganaLetter.by_letter.

(** The round trip of the spec: from the glyph to its letter, to the letter's
    romaji, and back through [from_str] to the same letter. *)
Definition roundtrips (g : str) : Prop :=
  exists l, HiraganaLetter.new g = Ok l /\
            HiraganaLetter.from_str (HiraganaLetter.romaji l) = Ok l.

(** The spelling [sp] and the glyph [g] map to each other. *)
Definition spelled (sp g : str) : Prop :=
  exists l, HiraganaLetter.new g = Ok l /\
            HiraganaLetter.romaji l = sp /\
            HiraganaLetter.from_str sp = Ok l.

Definition entry_ok (kv : str * (str * str)) : bool :=
  negb (is_kanji (fst kv)) &&
  Bool.eqb (contains (lit "ie") (snd (snd kv)))
           (mem (snd (snd kv)) [lit "i"; lit "e"]) &&
  (length (fst kv) =? 1)%nat.

(** While strings are buffered, the buffer holds strings only. *)
Definition buf_ok (l : Group.locals) : Prop :=
  Group.state l = Group.buffer_str -> Forall is_Str (Group.buf l).

(** Every kanji run has a character. *)
Definition runs_nonempty (gs : list obj) : Prop :=
  forall kanji furigana, In (KanjiSequence kanji furigana) gs -> kanji <> [].

(** While kanji are buffered, the buffer is not empty. *)
Definition kan_ok (l : Group.locals) : Prop :=
  (Group.state l = Group.buffer_kan -> Group.buf l <> []) /\ runs_nonempty (Group.groups l).

(** What an accumulator adds to the result of the loop. *)
Definition prepend (acc : list obj) (r : option (result (list obj)))
  : option (result (list obj)) :=
  match r with
  | Some (Ok toks) => Some (Ok (acc ++ toks))
  | other => other
  end.

(** ** [inflections.py]: sound marks *)

(** [d.get(k)] *)
Definition dict_get_or_None {V} (d : Dict.t V) (k : str) : option V :=
  match Dict.get d k with
  | Ok v => Some v
  | Raise _ => None
  end.

(** [a == b] on values that are a string or [None] *)
Definition option_str_eqb (a b : option str) : bool :=
  match a, b with
  | None, None => true
  | Some x, Some y => PyStr.eqb x y
  | _, _ => false
  end.

(** [self.with_dakuten(None)]: the branch of [with_dakuten] that the
    method calls itself with. *)
Definition with_dakuten_None (self : HiraganaLetter.t) : result HiraganaLetter.t :=
  if option_str_eqb None (HiraganaLetter.dakuten self) then Ok self
  else
    let new_row :=
      dict_get_or_None HiraganaLetter.reverse_dakuten_rules (HiraganaLetter.row self) in
    letter <- HiraganaLetter.rows_at new_row (Some (HiraganaLetter.ending self)) ;;
    HiraganaLetter.new letter.

(** [self.with_dakuten(dakuten)] for an argument that is [None], one of the
    two string constants dakuten and handakuten of the module, or a string
    of another value: on these the [is] tests of the method and equality of
    strings agree.  [with_dakuten_object] below is the method on every
    argument, and [with_dakuten_object_of] relates the two. *)
Definition with_dakuten (self : HiraganaLetter.t) (dakuten : option str)
  : result HiraganaLetter.t :=
  if option_str_eqb dakuten (HiraganaLetter.dakuten self) then Ok self
  else
    match dakuten with
    | None =>
        let new_row :=
          dict_get_or_None HiraganaLetter.reverse_dakuten_rules (HiraganaLetter.row self) in
        letter <- HiraganaLetter.rows_at new_row (Some (HiraganaLetter.ending self)) ;;
        HiraganaLetter.new letter
    | Some d =>
        basic_letter <- with_dakuten_None self ;;
        new_row <-
          (if PyStr.eqb d (lit "dakuten")
           then Ok (dict_get_or_None HiraganaLetter.dakuten_rules
                      (HiraganaLetter.row basic_letter))
           else if PyStr.eqb d (lit "handakuten")
           then Ok (dict_get_or_None HiraganaLetter.handakuten_rules
                      (HiraganaLetter.row basic_letter))
           else Raise (ValueError "dakuten must either be 'dakuten' or 'handakuten'")) ;;
        match (new_row : option str) with
        | None => Raise (ValueError "the row has no such rule")
        | Some r =>
            letter <- HiraganaLetter.rows_at (Some r)
                        (Some (HiraganaLetter.ending basic_letter)) ;;
            HiraganaLetter.new letter
        end
    end.

(** A value passed as [dakuten], by identity: [None], the string constant
    dakuten or handakuten that the [is] tests of [with_dakuten] compare
    with, or any other string object, whose value may be equal to one of
    the constants without the object being it. *)
Inductive mark_object : Type :=
| MarkNone
| MarkDakuten
| MarkHandakuten
| MarkOther (s : str).

(** The value of the object, which [==] compares. *)
Definition mark_value (o : mark_object) : option str :=
  match o with
  | MarkNone => None
  | MarkDakuten => Some (lit "dakuten")
  | MarkHandakuten => Some (lit "handakuten")
  | MarkOther s => Some s
  end.

(** [self.with_dakuten(dakuten)]: [==] compares values, [is] compares
    objects. *)
Definition with_dakuten_object (self : HiraganaLetter.t) (dakuten : mark_object)
  : result HiraganaLetter.t :=
  if option_str_eqb (mark_value dakuten) (HiraganaLetter.dakuten self) then Ok self
  else
    match dakuten with
    | MarkNone =>
        let new_row :=
          dict_get_or_None HiraganaLetter.reverse_dakuten_rules (HiraganaLetter.row self) in
        letter <- HiraganaLetter.rows_at new_row (Some (HiraganaLetter.ending self)) ;;
        HiraganaLetter.new letter
    | _ =>
        basic_letter <- with_dakuten_None self ;;
        new_row <-
          match dakuten with
          | MarkDakuten =>
              Ok (dict_get_or_None HiraganaLetter.dakuten_rules
                    (HiraganaLetter.row basic_letter))
          | MarkHandakuten =>
              Ok (dict_get_or_None HiraganaLetter.handakuten_rules
                    (HiraganaLetter.row basic_letter))
          | _ => Raise (ValueError "dakuten must either be 'dakuten' or 'handakuten'")
          end ;;
        match (new_row : option str) with
        | None => Raise (ValueError "the row has no such rule")
        | Some r =>
            letter <- HiraganaLetter.rows_at (Some r)
                        (Some (HiraganaLetter.ending basic_letter)) ;;
            HiraganaLetter.new letter
        end
    end.

(** The object for [None], for a constant, or for a string of another
    value. *)
Definition mark_object_of (dakuten : option str) : mark_object :=
  match dakuten with
  | None => MarkNone
  | Some d =>
      if PyStr.eqb d (lit "dakuten") then MarkDakuten
      else if PyStr.eqb d (lit "handakuten") then MarkHandakuten
      else MarkOther d
  end.

(** A letter as the constructor builds it from its glyph. *)
Definition table_letter (x : HiraganaLetter.t) : Prop :=
  HiraganaLetter.new (HiraganaLetter.c x) = Ok x.

Definition five_columns : list str :=
  [lit "a"; lit "i"; lit "u"; lit "e"; lit "o"].

(** The letters of all glyphs of the table. *)
Definition letters : list HiraganaLetter.t :=
  flat_map (fun g => match HiraganaLetter.new g with
                     | Ok x => [x]
                     | Raise _ => []
                     end) glyphs.

(** The i-column glyph that [masu] puts in place of a godan ending. *)
Definition i_column (last : str) : result str :=
  x <- HiraganaLetter.new last ;;
  HiraganaLetter.rows_at (Some (HiraganaLetter.row x)) (Some (lit "i")).

(** ** Gaps of the table *)

Definition column_gaps : list (str * str) :=
  [ (lit "y", lit "i"); (lit "y", lit "e");
    (lit "w", lit "i"); (lit "w", lit "u"); (lit "w", lit "e");
    (lit "nn", lit "a"); (lit "nn", lit "i"); (lit "nn", lit "u");
    (lit "nn", lit "e"); (lit "nn", lit "o") ].

Definition pair_mem (p : str * str) (l : list (str * str)) : bool :=
  existsb (fun q => PyStr.eqb (fst p) (fst q) && PyStr.eqb (snd p) (snd q)) l.

(** [with_ending] raises [KeyError] at a gap and returns elsewhere. *)
Definition gap_check (x : HiraganaLetter.t) (col : str) : bool :=
  match HiraganaLetter.with_ending x col with
  | Ok _ => negb (pair_mem (HiraganaLetter.row x, col) column_gaps)
  | Raise KeyError => pair_mem (HiraganaLetter.row x, col) column_gaps
  | Raise _ => false
  end.

(** The rows of letters without mark that have a marked row. *)
Definition unmarked_rows : list str := [lit "k"; lit "s"; lit "t"; lit "h"].
(** ** The text of a token and the grammar of the lexer *)

(** The piece of text a token was made from. *)
Definition token_text (o : obj) : str :=
  match o with
  | Str s => s
  | Kanji character => character
  | Furigana text => lit "^" ++ text
  | SPACE => lit "~"
  | _ => []
  end.

Definition hiragana_char (c : char) : bool := JpRE.in_class JpRE.hiragana_full c.

(** How [parse] cuts a text into tokens, rule by rule. *)
Inductive lexes : str -> list obj -> Prop :=
| lexes_nil : lexes [] []
| lexes_kanji : forall c rest toks,
    is_kanji [c] = true -> lexes rest toks ->
    lexes (c :: rest) (Kanji [c] :: toks)
| lexes_furigana : forall run rest toks,
    forallb hiragana_char run = true ->
    JpRE.match_class JpRE.hiragana_full rest = false ->
    lexes rest toks ->
    lexes (0x5e :: run ++ rest) (Furigana run :: toks)
| lexes_space : forall rest toks,
    lexes rest toks -> lexes (0x7e :: rest) (SPACE :: toks)
| lexes_str : forall c rest toks,
    is_kanji [c] = false -> c <> 0x5e -> c <> 0x7e -> lexes rest toks ->
    lexes (c :: rest) (Str [c] :: toks).

(** The shape of each token [parse] makes. *)
Definition lexed (o : obj) : Prop :=
  match o with
  | Kanji character => exists c, character = [c] /\ is_kanji [c] = true
  | Furigana text => forallb hiragana_char text = true
  | SPACE => True
  | Str s => exists c, s = [c] /\ is_kanji [c] = false /\ c <> 0x5e /\ c <> 0x7e
  | _ => False
  end.

(** ** What the grouper keeps *)

Definition is_Kanji (o : obj) : Prop :=
  match o with
  | Kanji _ => True
  | _ => False
  end.

Definition is_Kanji_b (o : obj) : bool :=
  match o with
  | Kanji _ => true
  | _ => false
  end.

Definition is_SPACE_b (o : obj) : bool :=
  match o with
  | SPACE => true
  | _ => false
  end.

Definition is_token_b (o : obj) : bool :=
  match o with
  | Str _ | Kanji _ | Furigana _ | SPACE => true
  | _ => false
  end.

(** The objects whose comparison with [SPACE] is the identity of objects:
    a [str] is handled before the comparison, and [Kanji], [Furigana] and
    [KanjiSequence] define no [__eq__]. *)
Definition own_object (o : obj) : Prop :=
  match o with
  | Other => False
  | _ => True
  end.

(** The shape of a node [group] makes. *)
Definition node_ok (o : obj) : Prop :=
  match o with
  | Str _ | SPACE => True
  | KanjiSequence kanji furigana =>
      kanji <> [] /\ Forall is_Kanji kanji /\
      (furigana = None \/ exists text, furigana = Some (Furigana text))
  | _ => False
  end.

(** The kanji of all runs, in order. *)
Definition run_kanji (gs : list obj) : list obj :=
  flat_map (fun g => match g with
                     | KanjiSequence kanji _ => kanji
                     | _ => []
                     end) gs.

(** The furigana of all runs, in order. *)
Definition run_furigana (gs : list obj) : list obj :=
  flat_map (fun g => match g with
                     | KanjiSequence _ (Some f) => [f]
                     | _ => []
                     end) gs.

(** The plain text of all string nodes, in order. *)
Definition plain_text (gs : list obj) : str :=
  flat_map (fun g => match g with
                     | Str s => s
                     | _ => []
                     end) gs.

(** The strings among the tokens that do not start with white space,
    joined. *)
Definition plain_chars (tokens : list obj) : str :=
  flat_map (fun t => match t with
                     | Str c => if is_whitespace c then [] else c
                     | _ => []
                     end) tokens.

(** The [Furigana] tokens that come right after a [Kanji] token;
    [after_kanji] says whether the token before the list is one. *)
Fixpoint attached (after_kanji : bool) (tokens : list obj) : list obj :=
  match tokens with
  | [] => []
  | Furigana text :: tokens' =>
      (if after_kanji then [Furigana text] else []) ++ attached false tokens'
  | Kanji _ :: tokens' => attached true tokens'
  | _ :: tokens' => attached false tokens'
  end.

Definition buffering_kanji (l : Group.locals) : bool :=
  match Group.state l with
  | Group.buffer_kan => true
  | _ => false
  end.

(** The kanji seen so far: those of the runs and those still buffered. *)
Definition pending_kanji (l : Group.locals) : list obj :=
  run_kanji (Group.groups l) ++ (if buffering_kanji l then Group.buf l else []).

(** The plain text seen so far: that of the nodes and that still buffered. *)
Definition pending_plain (l : Group.locals) : str :=
  plain_text (Group.groups l) ++
  match Group.state l with
  | Group.buffer_str => plain_chars (Group.buf l)
  | _ => []
  end.

(** While kanji are buffered, the buffer holds kanji, and at least one. *)
Definition kanji_buffered (l : Group.locals) : Prop :=
  (Group.state l = Group.buffer_kan ->
   Group.buf l <> [] /\ Forall is_Kanji (Group.buf l)) /\
  Forall node_ok (Group.groups l).

(** Outside the two buffering states the buffer is empty. *)
Definition empty_buf (l : Group.locals) : Prop :=
  Group.state l = Group.empty -> Group.buf l = [].

(** [l] with [gs] put before its groups. *)
Definition with_groups_before (gs : list obj) (l : Group.locals) : Group.locals :=
  Group.mk (Group.state l) (gs ++ Group.groups l) (Group.buf l).

(** ** [vocab.py]: sentences of the sentences box *)

(** The string methods [parse_sentence] and [parse_sentence_sequence] use. *)
Module StrMethods.

Definition isspace (c : char) : bool := JpRE.in_class JpRE.whitespace c.

(** [s.lstrip()] *)
Fixpoint lstrip (s : str) : str :=
  match s with
  | [] => []
  | c :: s' => if isspace c then lstrip s' else s
  end.

(** [s.rstrip()] *)
Fixpoint rstrip (s : str) : str :=
  match s with
  | [] => []
  | c :: s' =>
      match rstrip s' with
      | [] => if isspace c then [] else [c]
      | r => c :: r
      end
  end.

(** [s.strip()] *)
Definition strip (s : str) : str := rstrip (lstrip s).

(** [s.split(sep)] for a separator of one character *)
Fixpoint split (sep : char) (s : str) : list str :=
  match s with
  | [] => [[]]
  | c :: s' =>
      if c =? sep then [] :: split sep s'
      else match split sep s' with
           | p :: ps => (c :: p) :: ps
           | [] => [[c]]
           end
  end.

(** [sep.join(l)] *)
Fixpoint join_with (sep : str) (l : list str) : str :=
  match l with
  | [] => []
  | [x] => x
  | x :: l' => x ++ sep ++ join_with sep l'
  end.

(** The characters that end a line for [splitlines]. *)
Definition linebreaks : list char :=
  [0xa; 0xb; 0xc; 0xd; 0x1c; 0x1d; 0x1e; 0x85; 0x2028; 0x2029].

Definition is_linebreak (c : char) : bool := existsb (N.eqb c) linebreaks.

(** [s.splitlines()]: a carriage return followed by a line feed ends one
    line, and a line break at the end of the text starts no new line. *)
Fixpoint splitlines (s : str) : list str :=
  match s with
  | [] => []
  | c :: s' =>
      if is_linebreak c then
        [] :: (if c =? 0xd
               then match s' with
                    | c' :: s'' => if c' =? 0xa then splitlines s'' else splitlines s'
                    | [] => splitlines s'
                    end
               else splitlines s')
      else match splitlines s' with
           | l :: ls => (c :: l) :: ls
           | [] => [[c]]
           end
  end.

End StrMethods.

Record Sentence : Type := mk_Sentence {
  jp : str;
  translation : option str
}.

Definition equals_sign : char := 0x3d.

Definition parse_sentence (sentence : str) : result Sentence :=
  let parts := StrMethods.split equals_sign sentence in
  if (length parts =? 1)%nat
  then p0 <- match parts with p :: _ => Ok p | [] => Raise IndexError end ;;
       Ok (mk_Sentence (StrMethods.strip p0) None)
  else p0 <- match parts with p :: _ => Ok p | [] => Raise IndexError end ;;
       Ok (mk_Sentence (StrMethods.strip p0)
             (Some (StrMethods.strip (StrMethods.join_with (lit "=") (tl parts))))).

(** [[f(x) for x in l]] for a function that may raise *)
Fixpoint map_result {A B} (f : A -> result B) (l : list A) : result (list B) :=
  match l with
  | [] => Ok []
  | x :: l' => y <- f x ;; ys <- map_result f l' ;; Ok (y :: ys)
  end.

Definition parse_sentence_sequence (text : str) : result (list Sentence) :=
  let sentences := map StrMethods.strip (StrMethods.splitlines text) in
  map_result parse_sentence
    (filter (fun s => negb (length s =? 0)%nat) sentences).

Definition render_sentence (sentence : Sentence) : str :=
  match translation sentence with
  | None => jp sentence
  | Some t => jp sentence ++ lit " = " ++ t
  end.

(** The text the edit form shows for the sentences of an entry. *)
Definition sentences_box (sentences : list Sentence) : str :=
  StrMethods.join_with [0xa] (map render_sentence sentences).

(** What [parse_sentence] returns, without the exception layer. *)
Definition sentence_of (s : str) : Sentence :=
  match StrMethods.split equals_sign s with
  | [p] => mk_Sentence (StrMethods.strip p) None
  | p :: rest =>
      mk_Sentence (StrMethods.strip p)
        (Some (StrMethods.strip (StrMethods.join_with (lit "=") rest)))
  | [] => mk_Sentence [] None
  end.

(** A sentence as [parse_sentence] makes them: no equals sign in the
    Japanese text, no white space around either field. *)
Definition normal (s : Sentence) : Prop :=
  ~ In equals_sign (jp s) /\
  StrMethods.strip (jp s) = jp s /\
  (forall t, translation s = Some t -> StrMethods.strip t = t).

Definition no_linebreak (s : str) : Prop :=
  forall c, In c s -> StrMethods.is_linebreak c = false.

(** A line that is kept: not empty once stripped. *)
Definition nonblank (s : str) : bool := negb (length s =? 0)%nat.

(** A sentence that came from a line of the box: its text for the box is
    one line that is not blank. *)
Definition boxed (sen : Sentence) : Prop :=
  normal sen /\
  no_linebreak (render_sentence sen) /\
  StrMethods.strip (render_sentence sen) <> [].

(** * Properties *)

(** ** Golden cases *)

Example te_nomu :
  (r <- Inflections.new (Some (Glyph.kanji_nomu ++ Glyph.mu)) GODAN None None ;; Inflections.te r)
  = Ok (Glyph.kanji_nomu ++ Glyph.nn ++ Glyph.de).
Proof. reflexivity. Qed.

Example te_taberu :
  (r <- Inflections.new (Some (Glyph.kanji_taberu ++ Glyph.be ++ Glyph.ru)) ICHIDAN None None ;;
   Inflections.te r)
  = Ok (Glyph.kanji_taberu ++ Glyph.be ++ Glyph.te).
Proof. reflexivity. Qed.

Example masu_nomu :
  (r <- Inflections.new (Some (Glyph.kanji_nomu ++ Glyph.mu)) GODAN None None ;; Inflections.masu r)
  = Ok (Glyph.kanji_nomu ++ Glyph.mi ++ Glyph.ma ++ Glyph.su).
Proof. reflexivity. Qed.

Example parse_group_nihon :
  parse (Glyph.kanji_nichi ++ Glyph.kanji_hon ++ lit "^" ++ Glyph.ni ++ Glyph.ho ++ Glyph.nn)
  = Some (Ok [Kanji Glyph.kanji_nichi; Kanji Glyph.kanji_hon;
              Furigana (Glyph.ni ++ Glyph.ho ++ Glyph.nn)])
  /\ group [Kanji Glyph.kanji_nichi; Kanji Glyph.kanji_hon;
            Furigana (Glyph.ni ++ Glyph.ho ++ Glyph.nn)]
     = Ok [KanjiSequence [Kanji Glyph.kanji_nichi; Kanji Glyph.kanji_hon]
             (Some (Furigana (Glyph.ni ++ Glyph.ho ++ Glyph.nn)))].
Proof. split; reflexivity. Qed.

Example group_abc_def :
  (match parse (lit "abc~def") with Some (Ok t) => group t | _ => Raise TypeError end)
  = Ok [Str (lit "abc"); SPACE; Str (lit "def")].
Proof. reflexivity. Qed.

(** ** Strings, indices and dictionaries *)

Lemma eqb_eq : forall a b : str, PyStr.eqb a b = true <-> a = b.
Proof.
  induction a as [|x a IH]; destruct b as [|y b]; simpl; split; intro H;
    try reflexivity; try discriminate.
  - apply andb_true_iff in H. destruct H as [Hx Hr].
    apply N.eqb_eq in Hx. apply IH in Hr. congruence.
  - injection H as -> ->. rewrite N.eqb_refl. simpl. now apply IH.
Qed.

Lemma eqb_refl : forall a : str, PyStr.eqb a a = true.
Proof. intro a. now apply eqb_eq. Qed.

Lemma len_snoc : forall (s : str) (c : char), len (s ++ [c]) = (len s + 1)%Z.
Proof. intros. unfold len. rewrite length_app. simpl. lia. Qed.

Lemma len_nonneg : forall s : str, (0 <= len s)%Z.
Proof. intro s. unfold len. lia. Qed.

(** A negative index counts from the end. *)
Lemma index_neg : forall (s : str) (i : Z),
  (i < 0)%Z -> (0 <= i + len s)%Z ->
  index s i = match nth_error s (Z.to_nat (i + len s)) with
              | Some c => Ok [c]
              | None => Raise IndexError
              end.
Proof.
  intros s i Hi Hlen. unfold index. cbv zeta.
  destruct (Z.ltb_spec i 0); [|lia].
  destruct (Z.ltb_spec (i + len s) 0); [lia|]. reflexivity.
Qed.

Lemma index_last : forall (s : str) (c : char), index (s ++ [c]) (-1) = Ok [c].
Proof.
  intros s c. pose proof (len_nonneg s) as Hs.
  rewrite index_neg by (rewrite ?len_snoc; lia).
  rewrite len_snoc. replace (-1 + (len s + 1))%Z with (len s) by lia.
  unfold len. rewrite Nat2Z.id, nth_error_app2 by lia.
  now rewrite Nat.sub_diag.
Qed.

Lemma index_last2 : forall (s : str) (c d : char), index (s ++ [c; d]) (-2) = Ok [c].
Proof.
  intros s c d. pose proof (len_nonneg s) as Hs.
  change (s ++ [c; d]) with (s ++ [c] ++ [d]). rewrite app_assoc.
  rewrite index_neg by (rewrite ?len_snoc; lia).
  rewrite !len_snoc. replace (-2 + (len s + 1 + 1))%Z with (len s) by lia.
  unfold len. rewrite Nat2Z.id, <- app_assoc, nth_error_app2 by lia.
  now rewrite Nat.sub_diag.
Qed.

Lemma init_snoc : forall (s : str) (c : char), PyStr.init (s ++ [c]) = s.
Proof.
  intros s c. unfold PyStr.init. rewrite length_app. simpl.
  replace (length s + 1 - 1)%nat with (length s + 0)%nat by lia.
  rewrite firstn_app_2. simpl. apply app_nil_r.
Qed.

(** A string of length at least one ends in a character. *)
Lemma str_snoc : forall s : str, (1 <= len s)%Z -> exists s' c, s = s' ++ [c].
Proof.
  intros s H. destruct (exists_last (l := s)) as (s' & c & ->).
  - intros ->. unfold len in H. simpl in H. lia.
  - now exists s', c.
Qed.

Lemma get_In : forall V (d : Dict.t V) k v, Dict.get d k = Ok v -> In (k, v) d.
Proof.
  induction d as [|[k' v'] d IH]; simpl; intros k v H; [discriminate|].
  destruct (PyStr.eqb k' k) eqn:E.
  - apply eqb_eq in E. injection H as ->. left. congruence.
  - right. now apply IH.
Qed.

Lemma in_class_iff : forall cl c,
  JpRE.in_class cl c = true <-> exists lo hi, In (lo, hi) cl /\ lo <= c <= hi.
Proof.
  intros cl c. unfold JpRE.in_class. rewrite existsb_exists. split.
  - intros ([lo hi] & Hin & H). apply andb_true_iff in H. simpl in H.
    rewrite !N.leb_le in H. now exists lo, hi.
  - intros (lo & hi & Hin & H). exists (lo, hi). split; [assumption|].
    simpl. apply andb_true_iff. now rewrite !N.leb_le.
Qed.

(** ** Classification *)

(** C5: [sentence_parser.py] provides [is_kanji] but no [is_hiragana]: the
    module binds no such name, so the import in line 1 of [inflections.py]
    raises [ImportError] at [is_hiragana], before any letter is built. *)
Theorem is_hiragana_not_provided :
  PyImport.from_import PyImport.sentence_parser PyImport.inflections_line_1
  = PyImport.ImportError "is_hiragana" /\
  PyImport.binds PyImport.sentence_parser "is_hiragana" = false /\
  PyImport.binds PyImport.sentence_parser "is_kanji" = true.
Proof. repeat split. Qed.

(** Both predicates look at the first character only, and are false on the
    empty string. *)
Lemma classification_first_char : forall (c : char) (s : str),
  is_kanji (c :: s) = is_kanji [c] /\ is_hiragana (c :: s) = is_hiragana [c] /\
  is_kanji [] = false /\ is_hiragana [] = false.
Proof. intros. repeat split. Qed.

(** ** The kana table *)

Lemma by_letter_forward :
  HiraganaLetter.by_letter =
  map (fun x : str * str * str => (snd x, (fst (fst x), snd (fst x)))) forward_entries.
Proof. vm_compute. reflexivity. Qed.

Lemma by_letter_keys_NoDup : NoDup (Dict.keys HiraganaLetter.by_letter).
Proof.
  assert (E : nodup (list_eq_dec N.eq_dec) (Dict.keys HiraganaLetter.by_letter)
              = Dict.keys HiraganaLetter.by_letter) by (vm_compute; reflexivity).
  rewrite <- E. apply NoDup_nodup.
Qed.

Lemma get_of_NoDup : forall V (d : Dict.t V) k v,
  NoDup (Dict.keys d) -> In (k, v) d -> Dict.get d k = Ok v.
Proof.
  induction d as [|[k' v'] d IH]; simpl; intros k v Hnd Hin; [contradiction|].
  inversion Hnd as [|? ? Hnotin Hnd']; subst.
  destruct Hin as [E|Hin].
  - injection E as -> ->. now rewrite eqb_refl.
  - destruct (PyStr.eqb k' k) eqn:E.
    + apply eqb_eq in E. subst k'. exfalso. apply Hnotin.
      unfold Dict.keys. change k with (fst (k, v)). now apply in_map.
    + now apply IH.
Qed.

(** C7 (as the table is): [rows] has 16 rows, among them the vowel row and
    the row of the syllabic n; [by_letter] has 71 entries with 71 different
    glyphs, one for each glyph of [rows], and gives each glyph its row and
    column. *)
Theorem kana_tables_shape :
  length HiraganaLetter.rows = 16%nat /\
  In (lit "-") (Dict.keys HiraganaLetter.rows) /\
  In (lit "nn") (Dict.keys HiraganaLetter.rows) /\
  length forward_entries = 71%nat /\
  length HiraganaLetter.by_letter = 71%nat /\
  NoDup (Dict.keys HiraganaLetter.by_letter) /\
  (forall row ending letter,
     In (row, ending, letter) forward_entries <->
     Dict.get HiraganaLetter.by_letter letter = Ok (row, ending)).
Proof.
  split; [reflexivity|].
  split; [vm_compute; tauto|].
  split; [vm_compute; tauto|].
  split; [reflexivity|].
  split; [reflexivity|].
  split; [exact by_letter_keys_NoDup|].
  intros row ending letter. split.
  - intro Hin. apply get_of_NoDup; [exact by_letter_keys_NoDup|].
    rewrite by_letter_forward.
    change (letter, (row, ending)) with
      ((fun x : str * str * str => (snd x, (fst (fst x), snd (fst x)))) (row, ending, letter)).
    now apply in_map.
  - intro Hget. apply get_In in Hget. rewrite by_letter_forward in Hget.
    apply in_map_iff in Hget. destruct Hget as ([[r e] l] & E & Hin).
    simpl in E. now injection E as -> -> ->.
Qed.

Lemma kana_tables_shape_witness :
  Dict.get HiraganaLetter.by_letter Glyph.wo = Ok (lit "w", lit "o").
Proof.
  apply (proj1 (proj2 (proj2 (proj2 (proj2 (proj2 (proj2 kana_tables_shape)))))
                  (lit "w") (lit "o") Glyph.wo)).
  vm_compute. tauto.
Defined.

(** C7 (as the spec counts): the table does not have 14 rows. *)
Lemma kana_rows_not_fourteen :
  length HiraganaLetter.rows = 16%nat /\ length HiraganaLetter.rows <> 14%nat.
Proof. split; [reflexivity|discriminate]. Qed.

(** ** Column change *)

Lemma with_ending_guard : forall (x : HiraganaLetter.t) (col : str),
  contains (lit "aiueo") col = false ->
  HiraganaLetter.with_ending x col = Raise (ValueError "Ending must be one of 'aiueo'").
Proof. intros x col H. unfold HiraganaLetter.with_ending. now rewrite H. Qed.

Lemma with_ending_lookup : forall (x : HiraganaLetter.t) (col : str),
  In col [lit "a"; lit "i"; lit "u"; lit "e"; lit "o"] ->
  HiraganaLetter.with_ending x col =
  (letter <- HiraganaLetter.rows_at (Some (HiraganaLetter.row x)) (Some col) ;;
   HiraganaLetter.new letter).
Proof.
  intros x col H. unfold HiraganaLetter.with_ending.
  simpl in H. decompose [or] H; subst; try contradiction; reflexivity.
Qed.

(** C4: the guard of [with_ending] is a substring test, so the empty string
    and the string ai pass it and the table lookup raises [KeyError]; a column that
    is no substring of aiueo raises the [ValueError]. *)
Theorem with_ending_substring_guard :
  exists ka,
    HiraganaLetter.new Glyph.ka = Ok ka /\
    HiraganaLetter.with_ending ka (lit "ai") = Raise KeyError /\
    HiraganaLetter.with_ending ka (lit "") = Raise KeyError /\
    HiraganaLetter.with_ending ka (lit "x")
      = Raise (ValueError "Ending must be one of 'aiueo'") /\
    (r <- HiraganaLetter.with_ending ka (lit "e") ;; Ok (HiraganaLetter.c r))
      = Ok Glyph.ke.
Proof. eexists. repeat split. Qed.

(** ** The ichidan check in the constructor *)

Lemma len_kanji_ru : forall (stem : str) (k : char),
  (2 <= len (stem ++ [k] ++ Glyph.ru))%Z.
Proof. intros. unfold len. rewrite !length_app. simpl. lia. Qed.

(** An ideograph before a final ru: the check answers [None]. *)
Lemma has_ichidan_ending_kanji_ru : forall (stem : str) (k : char),
  is_kanji [k] = true ->
  has_ichidan_ending (stem ++ [k] ++ Glyph.ru) = Ok None.
Proof.
  intros stem k Hk. pose proof (len_kanji_ru stem k) as Hlen.
  unfold has_ichidan_ending.
  destruct (Z.ltb_spec (len (stem ++ [k] ++ Glyph.ru)) 2); [lia|].
  change (stem ++ [k] ++ Glyph.ru) with (stem ++ [k; 0x308b]).
  rewrite index_last2.
  change (stem ++ [k; 0x308b]) with (stem ++ [k] ++ [0x308b]).
  rewrite app_assoc, index_last. unfold bind. rewrite Hk. reflexivity.
Qed.

(** C1: a verb whose second-to-last character is an ideograph and whose last
    character is the kana ru gets [None] from [has_ichidan_ending], and the
    constructor, testing [not None], raises for type [ICHIDAN]. *)
Theorem ichidan_unknown_rejected : forall (stem : str) (k : char) ai inf,
  is_kanji [k] = true ->
  has_ichidan_ending (stem ++ [k] ++ Glyph.ru) = Ok None /\
  Inflections.new (Some (stem ++ [k] ++ Glyph.ru)) ICHIDAN ai inf
    = Raise (ValueError "verb has no ichidan ending").
Proof.
  intros stem k ai inf Hk. pose proof (len_kanji_ru stem k) as Hlen.
  pose proof (has_ichidan_ending_kanji_ru stem k Hk) as Hh.
  split; [exact Hh|].
  unfold Inflections.new.
  destruct (Z.leb_spec (len (stem ++ [k] ++ Glyph.ru)) 1); [lia|].
  unfold Inflections.is_ICHIDAN. rewrite Hh.
  change (stem ++ [k] ++ Glyph.ru) with (stem ++ [k] ++ [0x308b]).
  rewrite app_assoc, index_last. reflexivity.
Qed.

Lemma ichidan_unknown_rejected_witness :
  Inflections.new (Some (Glyph.kanji_miru ++ Glyph.ru)) ICHIDAN None None
    = Raise (ValueError "verb has no ichidan ending").
Proof.
  exact (proj2 (ichidan_unknown_rejected [] 0x898b None None eq_refl)).
Defined.

(** ** Romanisation round trip *)

Ltac each_glyph H :=
  unfold glyphs in H; vm_compute in H;
  repeat (destruct H as [H|H]; [subst|]); try contradiction.

(** C3 (as the code has it): every glyph of the table but the d-row ji and zu
    and the syllabic n makes the round trip; shi, chi, tsu, fu and ji are the
    spellings of their s-, t-, h- and z-row glyphs in both directions; the
    d-row glyphs are spelled ji and zu, which parse to the z-row glyphs. *)
Theorem romaji_roundtrip :
  (forall g, In g glyphs ->
     g <> Glyph.dji -> g <> Glyph.dzu -> g <> Glyph.nn -> roundtrips g) /\
  spelled (lit "shi") Glyph.shi /\ spelled (lit "chi") Glyph.chi /\
  spelled (lit "tsu") Glyph.tsu /\ spelled (lit "fu") Glyph.fu /\
  spelled (lit "ji") Glyph.ji /\
  (exists l l', HiraganaLetter.new Glyph.dji = Ok l /\
                HiraganaLetter.romaji l = lit "ji" /\
                HiraganaLetter.from_str (lit "ji") = Ok l' /\
                HiraganaLetter.c l' = Glyph.ji) /\
  (exists l l', HiraganaLetter.new Glyph.dzu = Ok l /\
                HiraganaLetter.romaji l = lit "zu" /\
                HiraganaLetter.from_str (lit "zu") = Ok l' /\
                HiraganaLetter.c l' = Glyph.zu).
Proof.
  split.
  - intros g Hin Hji Hzu Hn.
    each_glyph Hin;
      try (exfalso; first [now apply Hji | now apply Hzu | now apply Hn]);
      (eexists; split; vm_compute; reflexivity).
  - repeat split; try (eexists; repeat split; vm_compute; reflexivity).
    + do 2 eexists. repeat split; vm_compute; reflexivity.
    + do 2 eexists. repeat split; vm_compute; reflexivity.
Qed.

Lemma romaji_roundtrip_witness : roundtrips Glyph.wo.
Proof.
  apply (proj1 romaji_roundtrip Glyph.wo).
  - vm_compute. tauto.
  - discriminate.
  - discriminate.
  - discriminate.
Defined.

(** C3 (as stated): the d-row ji is a glyph of the table, and its romaji
    parses to another letter, the z-row ji. *)
Lemma romaji_roundtrip_fails_dji :
  In Glyph.dji glyphs /\
  exists l l', HiraganaLetter.new Glyph.dji = Ok l /\
               HiraganaLetter.from_str (HiraganaLetter.romaji l) = Ok l' /\
               l' <> l /\ ~ roundtrips Glyph.dji.
Proof.
  split; [vm_compute; tauto|].
  do 2 eexists. split; [vm_compute; reflexivity|].
  split; [vm_compute; reflexivity|].
  split; [discriminate|].
  intros (l & Hnew & Hback). vm_compute in Hnew. injection Hnew as <-.
  vm_compute in Hback. discriminate.
Qed.

(** The romaji of the syllabic n is the row name followed by the column
    name, which [from_str] does not parse. *)
Lemma romaji_n_not_parsed :
  exists l, HiraganaLetter.new Glyph.nn = Ok l /\
            HiraganaLetter.romaji l = lit "nnn" /\
            HiraganaLetter.from_str (HiraganaLetter.romaji l)
              = Raise (ValueError "Cannot transform to a kana letter").
Proof. eexists. repeat split. Qed.

(** ** The ichidan check *)

Lemma new_inv : forall k letter,
  HiraganaLetter.new k = Ok letter ->
  Dict.get HiraganaLetter.by_letter k
    = Ok (HiraganaLetter.row letter, HiraganaLetter.ending letter) /\
  HiraganaLetter.c letter = k.
Proof.
  intros k letter H. unfold HiraganaLetter.new in H.
  destruct (Dict.get HiraganaLetter.by_letter k) as [[r e]|] eqn:E; [|discriminate].
  simpl in H. injection H as <-. simpl. auto.
Qed.

Lemma by_letter_entries : forall k r e,
  In (k, (r, e)) HiraganaLetter.by_letter ->
  is_kanji k = false /\
  contains (lit "ie") e = mem e [lit "i"; lit "e"] /\
  length k = 1%nat.
Proof.
  intros k r e Hin.
  assert (Hall : forallb entry_ok HiraganaLetter.by_letter = true)
    by (vm_compute; reflexivity).
  rewrite forallb_forall in Hall. specialize (Hall _ Hin).
  unfold entry_ok in Hall. simpl in Hall.
  apply andb_true_iff in Hall. destruct Hall as [Hall H3].
  apply andb_true_iff in Hall. destruct Hall as [H1 H2].
  apply negb_true_iff in H1. apply Bool.eqb_prop in H2.
  apply Nat.eqb_eq in H3. auto.
Qed.

Lemma mem_ie : forall e : str,
  mem e [lit "i"; lit "e"] = true <-> e = lit "i" \/ e = lit "e".
Proof.
  intro e. unfold mem. simpl. rewrite !orb_true_iff, !eqb_eq.
  intuition discriminate.
Qed.

(** C2 (as the code has it): [has_ichidan_ending] gives [False] below two
    characters, [None] when an ideograph precedes a final ru, and, when a
    glyph of the kana table precedes the last character, [True] exactly if
    that glyph's column is i or e and the last character is ru. *)
Theorem has_ichidan_ending_cases :
  (forall verb, (len verb < 2)%Z -> has_ichidan_ending verb = Ok (Some false)) /\
  (forall stem k, is_kanji [k] = true ->
     has_ichidan_ending (stem ++ [k] ++ Glyph.ru) = Ok None) /\
  (forall stem k l letter, HiraganaLetter.new [k] = Ok letter ->
     exists b, has_ichidan_ending (stem ++ [k; l]) = Ok (Some b) /\
               (b = true <->
                (HiraganaLetter.ending letter = lit "i" \/
                 HiraganaLetter.ending letter = lit "e") /\ [l] = Glyph.ru)).
Proof.
  split; [|split].
  - intros verb H. unfold has_ichidan_ending.
    destruct (Z.ltb_spec (len verb) 2); [reflexivity|lia].
  - intros stem k Hk.
    now apply has_ichidan_ending_kanji_ru.
  - intros stem k l letter Hnew.
    destruct (new_inv _ _ Hnew) as [Hget Hc].
    apply get_In in Hget. apply by_letter_entries in Hget.
    destruct Hget as (Hkan & Hie & _).
    exists (mem (HiraganaLetter.ending letter) [lit "i"; lit "e"] && PyStr.eqb [l] Glyph.ru).
    split.
    + unfold has_ichidan_ending.
      assert (Hlen : (2 <= len (stem ++ [k; l]))%Z).
      { unfold len. rewrite length_app. simpl. lia. }
      destruct (Z.ltb_spec (len (stem ++ [k; l])) 2); [lia|].
      rewrite index_last2.
      change (stem ++ [k; l]) with (stem ++ [k] ++ [l]).
      rewrite app_assoc, index_last. unfold bind.
      rewrite Hkan, andb_false_l, Hnew, Hie. reflexivity.
    + rewrite andb_true_iff, mem_ie, eqb_eq. tauto.
Qed.

Lemma has_ichidan_ending_cases_witness :
  has_ichidan_ending Glyph.ru = Ok (Some false) /\
  has_ichidan_ending (Glyph.kanji_miru ++ Glyph.ru) = Ok None /\
  exists b, has_ichidan_ending (Glyph.kanji_taberu ++ Glyph.be ++ Glyph.ru) = Ok (Some b) /\
            (b = true <->
             (lit "e" = lit "i" \/ lit "e" = lit "e") /\ Glyph.ru = Glyph.ru).
Proof.
  split; [|split].
  - apply (proj1 has_ichidan_ending_cases). vm_compute. reflexivity.
  - apply (proj1 (proj2 has_ichidan_ending_cases) [] 0x898b). reflexivity.
  - exact (proj2 (proj2 has_ichidan_ending_cases) Glyph.kanji_taberu 0x3079 0x308b
             (HiraganaLetter.mk Glyph.be (lit "b") (lit "e") (Some (lit "dakuten")))
             eq_refl).
Defined.

(** C2 (as stated): an ideograph before a last character other than ru does
    not give [None]: the lookup of the ideograph in [by_letter] raises. *)
Lemma has_ichidan_ending_kanji_raises :
  is_kanji Glyph.kanji_nomu = true /\
  has_ichidan_ending (Glyph.kanji_nomu ++ Glyph.mu) = Raise KeyError /\
  has_ichidan_ending (Glyph.kanji_nomu ++ Glyph.mu) <> Ok None.
Proof. repeat split. discriminate. Qed.

(** ** The te-form *)

Lemma valid_ending_cases : forall c : char,
  contains Inflections.valid_endings [c] = true -> In [c] nine_endings.
Proof.
  intros c H. unfold Inflections.valid_endings in H.
  cbn -[N.eqb] in H.
  rewrite ?orb_true_iff, ?andb_true_iff, ?N.eqb_eq in H.
  unfold nine_endings. simpl.
  decompose [or and] H; subst; try discriminate; tauto.
Qed.

Lemma new_ok_inv : forall verb vt ai inf r,
  Inflections.new (Some verb) vt ai inf = Ok r ->
  exists stem c,
    verb = stem ++ [c] /\
    contains Inflections.valid_endings [c] = true /\
    Inflections.base_verb r = verb /\ Inflections.verb_type r = vt.
Proof.
  intros verb vt ai inf r H. unfold Inflections.new in H.
  destruct (Z.leb_spec (len verb) 1) as [Hle|Hgt]; [discriminate|].
  destruct (str_snoc verb) as (stem & c & ->); [lia|].
  rewrite index_last in H. unfold bind at 1 in H.
  destruct (contains Inflections.valid_endings [c]) eqn:Hc; [|discriminate].
  cbn [negb] in H.
  match type of H with bind ?G _ = _ => destruct G as [g|e] end; [|discriminate].
  unfold bind in H. destruct g; [discriminate|].
  match type of H with (if ?B then _ else _) = _ => destruct B end; [discriminate|].
  injection H as <-. exists stem, c. simpl. auto.
Qed.

(** C9: on a constructed request, [te] strips the last character and, for
    [ICHIDAN], appends te; for [GODAN], appends the suffix the rules give for
    that character, which is always one of the nine, so the last branch is
    never taken; for [IRREGULAR] it raises [NotImplementedError]. *)
Theorem te_form_cases : forall verb vt ai inf r,
  Inflections.new (Some verb) vt ai inf = Ok r ->
  exists stem last,
    verb = stem ++ last /\ In last nine_endings /\
    match vt with
    | ICHIDAN => Inflections.te r = Ok (stem ++ Glyph.te)
    | GODAN => exists suffix, godan_te_rule last = Some suffix /\
                              Inflections.te r = Ok (stem ++ suffix)
    | IRREGULAR => Inflections.te r = Raise NotImplementedError
    end /\
    Inflections.te r <> Raise (ValueError "invalid verb ending").
Proof.
  intros verb vt ai inf r H.
  destruct (new_ok_inv _ _ _ _ _ H) as (stem & c & -> & Hc & Hb & Hv).
  apply valid_ending_cases in Hc.
  exists stem, [c]. split; [reflexivity|]. split; [exact Hc|].
  unfold Inflections.te. rewrite Hv, Hb. destruct vt.
  - rewrite init_snoc. split; [reflexivity|discriminate].
  - rewrite index_last, init_snoc. unfold bind.
    unfold nine_endings in Hc. simpl in Hc.
    decompose [or] Hc; try contradiction;
      match goal with E : _ = [c] |- _ => injection E as <- end;
      (split; [eexists; split; reflexivity|discriminate]).
  - split; [reflexivity|discriminate].
Qed.

Lemma te_form_cases_witness :
  exists stem last,
    Glyph.kanji_nomu ++ Glyph.mu = stem ++ last /\ In last nine_endings /\
    (exists suffix, godan_te_rule last = Some suffix /\
       Inflections.te
         (Inflections.mk (Glyph.kanji_nomu ++ Glyph.mu) GODAN [] None)
       = Ok (stem ++ suffix)) /\
    Inflections.te (Inflections.mk (Glyph.kanji_nomu ++ Glyph.mu) GODAN [] None)
      <> Raise (ValueError "invalid verb ending").
Proof.
  exact (te_form_cases (Glyph.kanji_nomu ++ Glyph.mu) GODAN None None
           (Inflections.mk (Glyph.kanji_nomu ++ Glyph.mu) GODAN [] None) eq_refl).
Defined.

(** ** Rendering *)

Lemma render_kanji_list : forall chars : list str,
  join_map render_obj (map Kanji chars) = Ok (join (map anchor chars)).
Proof.
  induction chars as [|ch chars IH]; [reflexivity|].
  simpl map. unfold join_map in *. cbn [render_obj bind]. fold (join_map render_obj).
  unfold join_map at 1. rewrite IH. reflexivity.
Qed.

(** C8 (as the code has it): [render_obj] renders every character of a
    kanji run as an anchor, with or without furigana; with furigana the
    anchors are wrapped in the ruby markup with the furigana text. *)
Theorem kanji_sequence_rendering : forall (chars : list str) (text : str),
  render_obj (KanjiSequence (map Kanji chars) (Some (Furigana text)))
    = Ok (ruby (join (map anchor chars)) text) /\
  render_obj (KanjiSequence (map Kanji chars) None)
    = Ok (join (map anchor chars)).
Proof.
  intros chars text.
  split.
  - change (render_obj (KanjiSequence (map Kanji chars) (Some (Furigana text))))
      with (body <- join_map render_obj (map Kanji chars) ;;
            text' <- attr_text (Furigana text) ;; Ok (ruby body text')).
    rewrite render_kanji_list. reflexivity.
  - change (render_obj (KanjiSequence (map Kanji chars) None))
      with (body <- join_map render_obj (map Kanji chars) ;; Ok body).
    rewrite render_kanji_list. reflexivity.
Qed.

(** C8 (as stated): with furigana the run is not rendered as plain glyphs;
    the anchor of the character is inside the ruby markup. *)
Lemma furigana_run_keeps_links :
  render_obj (KanjiSequence [Kanji Glyph.kanji_nichi] (Some (Furigana Glyph.ni)))
    = Ok (ruby (anchor Glyph.kanji_nichi) Glyph.ni) /\
  render_obj (KanjiSequence [Kanji Glyph.kanji_nichi] (Some (Furigana Glyph.ni)))
    <> Ok (plain_ruby [Glyph.kanji_nichi] Glyph.ni).
Proof. split; [vm_compute; reflexivity|vm_compute; discriminate]. Qed.

(** The method [KanjiSequence.render] asks each [Kanji] for a [render]
    method it does not have. *)
Lemma render_method_raises : forall ch kanji furigana,
  render_method (KanjiSequence (Kanji ch :: kanji) furigana) = Raise AttributeError.
Proof. reflexivity. Qed.

(** ** The grouper *)

Section Grouper.

Import Group.

Lemma charseq_ok : forall bf, Forall is_Str bf -> exists s, charseq bf = Ok s.
Proof.
  induction bf as [|o bf IH]; intro H.
  - now exists [].
  - inversion H as [|? ? Ho Hbuf]; subst.
    destruct o; try contradiction.
    destruct (IH Hbuf) as (rest & Hrest).
    simpl. rewrite Hrest. simpl. eauto.
Qed.

Lemma step_ok : forall l token,
  is_token token -> buf_ok l -> exists l', step l token = Ok l' /\ buf_ok l'.
Proof.
  intros [st gs bf] token Htok Hbuf. unfold step, buf_ok in *. simpl in *.
  destruct st; destruct token; try contradiction;
    try (eexists; split; [reflexivity|]; simpl; intro E;
         first [discriminate | now repeat constructor | now apply Hbuf]);
    try (destruct (charseq_ok bf (Hbuf eq_refl)) as (s & ->);
         eexists; split; [reflexivity|]; simpl; discriminate).
  eexists; split; [reflexivity|]. simpl. intros _.
  apply Forall_app. split; [now apply Hbuf|now repeat constructor].
Qed.

Lemma loop_ok : forall tokens l,
  Forall is_token tokens -> buf_ok l ->
  exists l', loop l tokens = Ok l' /\ buf_ok l'.
Proof.
  induction tokens as [|token tokens IH]; intros l Htok Hbuf.
  - now exists l.
  - inversion Htok as [|? ? H1 H2]; subst.
    destruct (step_ok l token H1 Hbuf) as (l1 & Hstep & Hbuf1).
    destruct (IH l1 H2 Hbuf1) as (l' & Hloop & Hbuf').
    exists l'. simpl. rewrite Hstep. simpl. auto.
Qed.

Lemma finish_ok : forall l, buf_ok l -> exists gs, finish l = Ok gs.
Proof.
  intros [st gs bf] Hbuf. unfold finish, buf_ok in *. simpl in *.
  destruct st; eauto.
  destruct (charseq_ok bf (Hbuf eq_refl)) as (s & ->). simpl. eauto.
Qed.

Lemma group_ok : forall tokens,
  Forall is_token tokens -> exists gs, group tokens = Ok gs.
Proof.
  intros tokens H. unfold group.
  destruct (loop_ok tokens start H) as (l & -> & Hbuf); [discriminate|].
  simpl. now apply finish_ok.
Qed.

Lemma loop_app : forall pre post l,
  loop l (pre ++ post) = (l' <- loop l pre ;; loop l' post).
Proof.
  induction pre as [|token pre IH]; intros post l; [reflexivity|].
  simpl. destruct (step l token) as [l1|e]; simpl; [apply IH|reflexivity].
Qed.

Lemma step_furigana_dropped : forall l text,
  state l <> buffer_kan -> step l (Furigana text) = Ok l.
Proof.
  intros [st gs bf] text H. unfold step. simpl in *.
  destruct st; try reflexivity. now contradiction H.
Qed.

Lemma runs_nonempty_app : forall gs gs',
  runs_nonempty gs -> runs_nonempty gs' -> runs_nonempty (gs ++ gs').
Proof.
  intros gs gs' H H' kanji furigana Hin.
  apply in_app_or in Hin. destruct Hin; eauto.
Qed.

Lemma runs_nonempty_nil : runs_nonempty [].
Proof. intros kanji furigana []. Qed.

Lemma runs_nonempty_cons : forall o gs,
  (forall kanji furigana, o = KanjiSequence kanji furigana -> kanji <> []) ->
  runs_nonempty gs -> runs_nonempty (o :: gs).
Proof.
  intros o gs Ho Hgs kanji furigana [E|Hin]; [now apply (Ho kanji furigana)|eauto].
Qed.

Create HintDb runs.

#[local] Hint Resolve runs_nonempty_app runs_nonempty_nil : runs.

(** Closes [runs_nonempty] goals on the lists the grouper appends. *)
Ltac runs :=
  repeat first
    [ assumption
    | apply runs_nonempty_nil
    | apply runs_nonempty_app
    | apply runs_nonempty_cons;
      [ intros ? ? E; first [discriminate | injection E as <- _; auto] | ] ].

Lemma snoc_nonempty : forall (bf : list obj) (o : obj), bf ++ [o] <> [].
Proof. intros bf o E. now apply app_eq_nil in E as [_ E]. Qed.

Lemma step_kan_ok : forall l token l',
  step l token = Ok l' -> kan_ok l -> kan_ok l'.
Proof.
  intros [st gs bf] token l' Hstep [Hb Hr]. unfold step in Hstep. simpl in *.
  destruct st; destruct token; try discriminate;
    try (destruct (charseq bf) as [s|e]; simpl in Hstep; [|discriminate]);
    injection Hstep as <-; split; simpl;
    try discriminate; try (intros _; discriminate);
    try (intros _; apply snoc_nonempty);
    try assumption; runs.
Qed.

Lemma loop_kan_ok : forall tokens l l',
  loop l tokens = Ok l' -> kan_ok l -> kan_ok l'.
Proof.
  induction tokens as [|token tokens IH]; intros l l' Hloop Hk.
  - simpl in Hloop. now injection Hloop as <-.
  - simpl in Hloop. destruct (step l token) as [l1|e] eqn:Hstep; [|discriminate].
    simpl in Hloop. apply (IH l1 l' Hloop). now apply (step_kan_ok l token).
Qed.

Lemma finish_kan_ok : forall l gs,
  finish l = Ok gs -> kan_ok l -> runs_nonempty gs.
Proof.
  intros [st gs0 bf] gs Hfin [Hb Hr]. unfold finish in Hfin. simpl in *.
  destruct st.
  - now injection Hfin as <-.
  - destruct (charseq bf) as [s|e]; simpl in Hfin; [|discriminate].
    injection Hfin as <-. runs.
  - injection Hfin as <-. runs.
Qed.

End Grouper.

(** C10: no [KanjiSequence] in the output of [group] has an empty list of
    kanji, whatever the tokens are. *)
Theorem group_runs_nonempty : forall tokens gs kanji furigana,
  group tokens = Ok gs ->
  In (KanjiSequence kanji furigana) gs ->
  kanji <> [].
Proof.
  intros tokens gs kanji furigana Hgroup Hin. unfold group in Hgroup.
  destruct (Group.loop Group.start tokens) as [l|e] eqn:Hloop; [|discriminate].
  simpl in Hgroup.
  assert (Hstart : kan_ok Group.start).
  { split; [discriminate|]. apply runs_nonempty_nil. }
  apply (finish_kan_ok l gs Hgroup (loop_kan_ok tokens _ _ Hloop Hstart) kanji furigana Hin).
Qed.

Lemma group_runs_nonempty_witness :
  [Kanji Glyph.kanji_nichi; Kanji Glyph.kanji_hon] <> [].
Proof.
  apply (group_runs_nonempty
           [Kanji Glyph.kanji_nichi; Kanji Glyph.kanji_hon; Furigana Glyph.ni;
            Kanji Glyph.kanji_go]
           [KanjiSequence [Kanji Glyph.kanji_nichi; Kanji Glyph.kanji_hon]
              (Some (Furigana Glyph.ni));
            KanjiSequence [Kanji Glyph.kanji_go] None]
           _ (Some (Furigana Glyph.ni))).
  - reflexivity.
  - simpl. tauto.
Defined.

(** ** The lexer *)

Lemma prepend_prepend : forall acc acc' r,
  prepend acc (prepend acc' r) = prepend (acc ++ acc') r.
Proof.
  intros acc acc' [[toks|e]|]; simpl; try reflexivity.
  now rewrite app_assoc.
Qed.

(** One turn of the loop on a text that is not empty. *)
Lemma parse_loop_cons : forall fuel c rest acc,
  parse_loop (S fuel) (c :: rest) acc =
  if is_kanji [c] then parse_loop fuel rest (acc ++ [Kanji [c]])
  else if c =? 0x5e
  then parse_loop fuel
         (skipn (length (JpRE.star JpRE.hiragana_full rest)) rest)
         (acc ++ [Furigana (JpRE.star JpRE.hiragana_full rest)])
  else if c =? 0x7e then parse_loop fuel rest (acc ++ [SPACE])
  else parse_loop fuel rest (acc ++ [Str [c]]).
Proof.
  intros fuel c rest acc.
  change (parse_loop (S fuel) (c :: rest) acc) with
    (if is_kanji [c] then parse_loop fuel rest (acc ++ [Kanji [c]])
     else if PyStr.eqb [c] (lit "^")
     then match search_furigana (c :: rest) with
          | Some m =>
              parse_loop fuel (PyStr.from (length (group0 m)) (c :: rest))
                (acc ++ [Furigana (group_furigana m)])
          | None => Some (Raise (ValueError "no match"))
          end
     else if PyStr.eqb [c] (lit "~") then parse_loop fuel rest (acc ++ [SPACE])
     else parse_loop fuel rest (acc ++ [Str [c]])).
  change (PyStr.eqb [c] (lit "^")) with ((c =? 0x5e) && true).
  change (PyStr.eqb [c] (lit "~")) with ((c =? 0x7e) && true).
  rewrite !andb_true_r. unfold search_furigana.
  destruct (c =? 0x5e); reflexivity.
Qed.

Lemma parse_loop_nil : forall fuel acc, parse_loop fuel [] acc = Some (Ok acc).
Proof. intros [|fuel] acc; reflexivity. Qed.

Lemma parse_loop_acc : forall fuel text acc,
  parse_loop fuel text acc = prepend acc (parse_loop fuel text []).
Proof.
  induction fuel as [|fuel IH]; intros text acc.
  - destruct text; simpl; [now rewrite app_nil_r|reflexivity].
  - destruct text as [|c rest].
    + rewrite !parse_loop_nil. simpl. now rewrite app_nil_r.
    + rewrite !parse_loop_cons.
      repeat match goal with |- context [if ?b then _ else _] => destruct b end;
        rewrite IH; symmetry; rewrite IH; now rewrite prepend_prepend.
Qed.

(** The loop ends within [length text] turns, with tokens of the four
    kinds. *)
Lemma parse_loop_total : forall fuel text acc,
  (length text <= fuel)%nat ->
  exists toks, parse_loop fuel text acc = Some (Ok (acc ++ toks)) /\
               Forall is_token toks.
Proof.
  induction fuel as [|fuel IH]; intros text acc Hlen.
  - destruct text; [|simpl in Hlen; lia].
    exists []. rewrite app_nil_r. split; [reflexivity|constructor].
  - destruct text as [|c rest].
    + exists []. rewrite app_nil_r, parse_loop_nil. split; [reflexivity|constructor].
    + simpl in Hlen. rewrite parse_loop_cons.
      assert (Hskip : forall n, (length (skipn n rest) <= fuel)%nat)
        by (intro n; rewrite length_skipn; lia).
      repeat match goal with |- context [if ?b then _ else _] => destruct b end;
        match goal with
        | |- exists _, parse_loop _ ?t (_ ++ [?x]) = _ /\ _ =>
            destruct (IH t (acc ++ [x])) as (toks & -> & Htok);
            [first [apply Hskip | lia]|];
            exists (x :: toks); split;
            [now rewrite <- app_assoc | constructor; [exact I|assumption]]
        end.
Qed.

Lemma star_not_hiragana : forall rest,
  JpRE.match_class JpRE.hiragana_full rest = false ->
  JpRE.star JpRE.hiragana_full rest = [].
Proof.
  intros [|c rest] H; [reflexivity|]. simpl in H. simpl. now rewrite H.
Qed.

(** ** Letters of the table *)

Lemma bind_ok : forall A B (r : result A) (k : A -> result B) y,
  bind r k = Ok y -> exists a, r = Ok a /\ k a = Ok y.
Proof. intros A B [a|e] k y H; [now exists a|discriminate]. Qed.

Lemma except_ok : forall A (b : result A) e x,
  except_KeyError b e = Ok x -> b = Ok x.
Proof. intros A [a|[]] e x H; simpl in H; congruence. Qed.

Lemma new_table_letter : forall g x,
  HiraganaLetter.new g = Ok x -> table_letter x.
Proof.
  intros g x H. unfold table_letter.
  destruct (new_inv g x H) as [_ ->]. exact H.
Qed.

Lemma table_letter_in : forall x, table_letter x -> In x letters.
Proof.
  intros x H. unfold letters. apply in_flat_map.
  exists (HiraganaLetter.c x). split.
  - destruct (new_inv _ _ H) as [Hget _]. apply get_In in Hget.
    unfold glyphs, Dict.keys.
    change (HiraganaLetter.c x) with
      (fst (HiraganaLetter.c x, (HiraganaLetter.row x, HiraganaLetter.ending x))).
    now apply in_map.
  - unfold table_letter in H. rewrite H. now left.
Qed.

(** Case analysis on a letter of the table: one goal for each of the 71. *)
Ltac each_letter H :=
  apply table_letter_in in H; vm_compute in H;
  repeat (destruct H as [H|H]; [subst|]); try contradiction.

Lemma from_str_new : forall s x,
  HiraganaLetter.from_str s = Ok x -> exists g, HiraganaLetter.new g = Ok x.
Proof.
  intros s x H. unfold HiraganaLetter.from_str in H.
  destruct ((len s =? 1)%Z && is_hiragana s); [now exists s|].
  destruct (len s =? 0)%Z; [discriminate|].
  apply bind_ok in H. destruct H as ([row ending] & _ & H).
  apply except_ok, bind_ok in H. destruct H as (letter & _ & H).
  now exists letter.
Qed.

Lemma table_letter_fields : forall x,
  table_letter x ->
  HiraganaLetter.rows_at (Some (HiraganaLetter.row x)) (Some (HiraganaLetter.ending x))
    = Ok (HiraganaLetter.c x) /\
  Dict.get HiraganaLetter.by_letter (HiraganaLetter.c x)
    = Ok (HiraganaLetter.row x, HiraganaLetter.ending x) /\
  HiraganaLetter.dakuten x =
    (if mem (HiraganaLetter.row x) [lit "g"; lit "z"; lit "d"; lit "b"]
     then Some (lit "dakuten")
     else if mem (HiraganaLetter.row x) [lit "p"] then Some (lit "handakuten")
     else None).
Proof. intros x H. each_letter H; repeat split. Qed.

(** X1: every letter that [from_str] or [with_ending] returns is a letter of
    the table: the forward table maps its row and column to its glyph, the
    reverse table maps the glyph back, and its mark is the one of its row. *)
Theorem letters_agree_with_table : forall x,
  (exists s, HiraganaLetter.from_str s = Ok x) \/
  (exists y col, HiraganaLetter.with_ending y col = Ok x) ->
  HiraganaLetter.rows_at (Some (HiraganaLetter.row x)) (Some (HiraganaLetter.ending x))
    = Ok (HiraganaLetter.c x) /\
  Dict.get HiraganaLetter.by_letter (HiraganaLetter.c x)
    = Ok (HiraganaLetter.row x, HiraganaLetter.ending x) /\
  HiraganaLetter.dakuten x =
    (if mem (HiraganaLetter.row x) [lit "g"; lit "z"; lit "d"; lit "b"]
     then Some (lit "dakuten")
     else if mem (HiraganaLetter.row x) [lit "p"] then Some (lit "handakuten")
     else None).
Proof.
  intros x [(s & H)|(y & col & H)]; apply table_letter_fields.
  - destruct (from_str_new s x H) as (g & Hg). now apply (new_table_letter g).
  - unfold HiraganaLetter.with_ending in H.
    destruct (negb (contains (lit "aiueo") col)); [discriminate|].
    apply bind_ok in H. destruct H as (g & _ & Hg). now apply (new_table_letter g).
Qed.

Lemma letters_agree_with_table_witness :
  HiraganaLetter.rows_at (Some (lit "t")) (Some (lit "u")) = Ok Glyph.tsu /\
  Dict.get HiraganaLetter.by_letter Glyph.tsu = Ok (lit "t", lit "u") /\
  None = (if mem (lit "t") [lit "g"; lit "z"; lit "d"; lit "b"]
          then Some (lit "dakuten")
          else if mem (lit "t") [lit "p"] then Some (lit "handakuten")
          else None).
Proof.
  exact (letters_agree_with_table
           (HiraganaLetter.mk Glyph.tsu (lit "t") (lit "u") None)
           (or_introl (ex_intro _ (lit "tsu") eq_refl))).
Defined.

(** ** Parsing romaji: what is refused *)

Lemma except_not_KeyError : forall A (b : result A) m,
  (exists x, except_KeyError b (ValueError m) = Ok x) \/
  (exists e, except_KeyError b (ValueError m) = Raise e /\ e <> KeyError).
Proof.
  intros A [a|e] m; [left; now exists a|right].
  destruct e; simpl; eexists; (split; [reflexivity|discriminate]).
Qed.

Lemma rows_at_new_errors : forall row ending,
  (exists x, (letter <- HiraganaLetter.rows_at row ending ;; HiraganaLetter.new letter) = Ok x) \/
  (letter <- HiraganaLetter.rows_at row ending ;; HiraganaLetter.new letter) = Raise KeyError.
Proof.
  intros [r|] [e|]; unfold HiraganaLetter.rows_at; try (right; reflexivity).
  - destruct (Dict.get HiraganaLetter.rows r) as [d|err] eqn:Hd.
    + cbn [bind]. destruct (Dict.get d e) as [g|err] eqn:Hg.
      * cbn [bind]. unfold HiraganaLetter.new.
        destruct (Dict.get HiraganaLetter.by_letter g) as [[r' e']|err] eqn:Hb.
        -- left. cbn [bind]. eauto.
        -- right. cbn [bind]. clear - Hb.
           induction HiraganaLetter.by_letter as [|[k v] d' IH]; simpl in Hb.
           ++ congruence.
           ++ destruct (PyStr.eqb k g); [discriminate|auto].
      * right. cbn [bind]. clear - Hg.
        induction d as [|[k v] d' IH]; simpl in Hg.
        -- congruence.
        -- destruct (PyStr.eqb k e); [discriminate|auto].
    + right. cbn [bind]. clear - Hd.
      induction HiraganaLetter.rows as [|[k v] d' IH]; simpl in Hd.
      * congruence.
      * destruct (PyStr.eqb k r); [discriminate|auto].
  - destruct (Dict.get HiraganaLetter.rows r) as [d|err] eqn:Hd.
    + right. reflexivity.
    + right. cbn [bind]. clear - Hd.
      induction HiraganaLetter.rows as [|[k v] d' IH]; simpl in Hd.
      * congruence.
      * destruct (PyStr.eqb k r); [discriminate|auto].
Qed.

(** X2: on a string that is not a single character, [from_str] returns a
    letter or raises [ValueError], never another exception: the empty
    string is refused as empty romaji, and a string of three characters or
    more other than shi, chi and tsu as one that cannot be transformed. *)
Theorem from_str_refusals : forall s,
  len s <> 1%Z ->
  ((exists x, HiraganaLetter.from_str s = Ok x) \/
   (exists m, HiraganaLetter.from_str s = Raise (ValueError m))) /\
  (s = [] -> HiraganaLetter.from_str s = Raise (ValueError "empty romaji")) /\
  ((3 <= len s)%Z -> s <> lit "shi" -> s <> lit "chi" -> s <> lit "tsu" ->
   HiraganaLetter.from_str s
     = Raise (ValueError "Cannot transform to a kana letter")).
Proof.
  intros s Hlen.
  assert (H1 : (len s =? 1)%Z = false) by now apply Z.eqb_neq.
  split; [|split].
  - unfold HiraganaLetter.from_str. rewrite H1. cbn [andb].
    destruct (len s =? 0)%Z; [right; eauto|].
    match goal with
    | |- context [bind ?R _] => destruct R as [[row ending]|e] eqn:HR
    end.
    + cbn [bind].
      destruct (rows_at_new_errors row ending) as [(x & ->)| ->].
      * left. now exists x.
      * right. simpl. eauto.
    + exfalso. try rewrite H1 in HR.
      repeat match type of HR with
             | (if ?b then _ else _) = _ => destruct b eqn:?
             end; try discriminate.
      destruct s as [|a [|b [|c s']]]; try discriminate.
  - intros ->. reflexivity.
  - intros H3 Hshi Hchi Htsu.
    destruct s as [|a [|b [|c s']]]; try (unfold len in H3; simpl in H3; lia).
    unfold HiraganaLetter.from_str. rewrite H1. cbn [andb].
    assert (Hne : forall t, a :: b :: c :: s' <> t ->
                            PyStr.eqb (a :: b :: c :: s') t = false).
    { intros t Ht. destruct (PyStr.eqb (a :: b :: c :: s') t) eqn:E; [|reflexivity].
      apply eqb_eq in E. contradiction. }
    rewrite (Hne _ Hshi), (Hne _ Hchi), (Hne _ Htsu).
    assert (H0 : (len (a :: b :: c :: s') =? 0)%Z = false)
      by (apply Z.eqb_neq; lia).
    assert (H2 : (len (a :: b :: c :: s') =? 2)%Z = false)
      by (apply Z.eqb_neq; lia).
    rewrite H0, H2.
    change (PyStr.eqb (a :: b :: c :: s') (lit "fu")) with
      ((a =? 102) && ((b =? 117) && false)).
    change (PyStr.eqb (a :: b :: c :: s') (lit "ji")) with
      ((a =? 106) && ((b =? 105) && false)).
    change (PyStr.eqb (a :: b :: c :: s') (lit "n")) with ((a =? 110) && false).
    rewrite !andb_false_r. reflexivity.
Qed.

Lemma from_str_refusals_witness :
  HiraganaLetter.from_str (lit "kya")
    = Raise (ValueError "Cannot transform to a kana letter").
Proof.
  apply (proj2 (proj2 (from_str_refusals (lit "kya") ltac:(discriminate))));
    [vm_compute|..]; discriminate.
Defined.

(** ** Changing the column *)

Lemma rows_at_entry : forall r e g,
  HiraganaLetter.rows_at (Some r) (Some e) = Ok g -> In (r, e, g) forward_entries.
Proof.
  intros r e g H. unfold HiraganaLetter.rows_at in H.
  apply bind_ok in H. destruct H as (d & Hd & Hg).
  apply get_In in Hd. apply get_In in Hg.
  unfold forward_entries. apply in_flat_map. exists (r, d). split; [exact Hd|].
  change (r, e, g) with
    ((fun el : str * str => (fst (r, d), fst el, snd el)) (e, g)).
  now apply in_map.
Qed.

Lemma rows_at_by_letter : forall r e g,
  HiraganaLetter.rows_at (Some r) (Some e) = Ok g ->
  Dict.get HiraganaLetter.by_letter g = Ok (r, e).
Proof.
  intros r e g H. apply rows_at_entry in H.
  apply get_of_NoDup; [exact by_letter_keys_NoDup|].
  rewrite by_letter_forward.
  change (g, (r, e)) with
    ((fun x : str * str * str => (snd x, (fst (fst x), snd (fst x)))) (r, e, g)).
  now apply in_map.
Qed.

Lemma entry_column : forall r e g,
  In (r, e, g) forward_entries -> e = lit "n" \/ In e five_columns.
Proof.
  intros r e g H.
  assert (Hall : forallb (fun x : str * str * str =>
                            mem (snd (fst x)) (lit "n" :: five_columns))
                   forward_entries = true) by (vm_compute; reflexivity).
  rewrite forallb_forall in Hall. specialize (Hall _ H). simpl in Hall.
  rewrite !orb_true_iff, !eqb_eq in Hall. unfold five_columns. simpl.
  intuition (try discriminate; subst; auto).
Qed.

Lemma with_ending_row : forall x col y,
  HiraganaLetter.with_ending x col = Ok y ->
  contains (lit "aiueo") col = true /\
  HiraganaLetter.rows_at (Some (HiraganaLetter.row x)) (Some col)
    = Ok (HiraganaLetter.c y) /\
  Dict.get HiraganaLetter.by_letter (HiraganaLetter.c y)
    = Ok (HiraganaLetter.row y, HiraganaLetter.ending y).
Proof.
  intros x col y H. unfold HiraganaLetter.with_ending in H.
  destruct (contains (lit "aiueo") col) eqn:Hsub; [|discriminate].
  cbn [negb] in H. apply bind_ok in H. destruct H as (g & Hrows & Hnew).
  destruct (new_inv _ _ Hnew) as [Hget Hc]. subst g. auto.
Qed.

(** X3: when [with_ending] returns a letter, the letter has the row of the
    receiver and the column asked for, its glyph is the table's glyph for
    that row and column, and the column is one of a, i, u, e, o. *)
Theorem with_ending_result : forall x col y,
  HiraganaLetter.with_ending x col = Ok y ->
  HiraganaLetter.row y = HiraganaLetter.row x /\
  HiraganaLetter.ending y = col /\
  HiraganaLetter.rows_at (Some (HiraganaLetter.row x)) (Some col)
    = Ok (HiraganaLetter.c y) /\
  In col five_columns.
Proof.
  intros x col y H.
  destruct (with_ending_row x col y H) as (Hsub & Hrows & Hget).
  rewrite (rows_at_by_letter _ _ _ Hrows) in Hget.
  injection Hget as Hr He.
  repeat split; auto.
  destruct (entry_column _ _ _ (rows_at_entry _ _ _ Hrows)) as [->|Hin];
    [discriminate Hsub|exact Hin].
Qed.

Lemma with_ending_result_witness :
  lit "k" = lit "k" /\ lit "o" = lit "o" /\
  HiraganaLetter.rows_at (Some (lit "k")) (Some (lit "o")) = Ok Glyph.ko /\
  In (lit "o") five_columns.
Proof.
  exact (with_ending_result
           (HiraganaLetter.mk Glyph.ka (lit "k") (lit "a") None) (lit "o")
           (HiraganaLetter.mk Glyph.ko (lit "k") (lit "o") None) eq_refl).
Defined.

(** X4: changing the column twice is changing it once to the last column,
    and changing a letter of the table to its own column gives the letter
    back. *)
Theorem with_ending_twice : forall x col col' y,
  HiraganaLetter.with_ending x col = Ok y ->
  HiraganaLetter.with_ending y col' = HiraganaLetter.with_ending x col' /\
  HiraganaLetter.with_ending y col = Ok y /\
  (table_letter x -> HiraganaLetter.with_ending y (HiraganaLetter.ending x) = Ok x).
Proof.
  intros x col col' y H.
  destruct (with_ending_row x col y H) as (Hsub & Hrows & Hget).
  rewrite (rows_at_by_letter _ _ _ Hrows) in Hget.
  injection Hget as Hrow Hend. symmetry in Hrow.
  assert (Hin : In col five_columns).
  { destruct (entry_column _ _ _ (rows_at_entry _ _ _ Hrows)) as [->|Hin];
      [discriminate Hsub|exact Hin]. }
  assert (Hsame : forall c', HiraganaLetter.with_ending y c'
                             = HiraganaLetter.with_ending x c').
  { intro c'. unfold HiraganaLetter.with_ending. now rewrite Hrow. }
  split; [apply Hsame|]. split; [now rewrite Hsame|].
  intro Hx. rewrite Hsame.
  assert (Hcol : In (HiraganaLetter.ending x) five_columns).
  { clear - Hx Hin Hrows. unfold five_columns in Hin. simpl in Hin.
    each_letter Hx;
      first [ vm_compute; tauto
            | decompose [or] Hin; try contradiction; subst;
              vm_compute in Hrows; discriminate Hrows ]. }
  rewrite (with_ending_lookup x _ Hcol).
  destruct (table_letter_fields x Hx) as (-> & _ & _). exact Hx.
Qed.

Lemma with_ending_twice_witness :
  HiraganaLetter.with_ending (HiraganaLetter.mk Glyph.ko (lit "k") (lit "o") None) (lit "i")
  = HiraganaLetter.with_ending (HiraganaLetter.mk Glyph.ka (lit "k") (lit "a") None) (lit "i").
Proof.
  exact (proj1 (with_ending_twice
                  (HiraganaLetter.mk Glyph.ka (lit "k") (lit "a") None) (lit "o") (lit "i")
                  (HiraganaLetter.mk Glyph.ko (lit "k") (lit "o") None) eq_refl)).
Defined.

Lemma pair_mem_In : forall p l, pair_mem p l = true <-> In p l.
Proof.
  intros [a b] l. unfold pair_mem. rewrite existsb_exists. split.
  - intros ([a' b'] & Hin & H). simpl in H. apply andb_true_iff in H.
    destruct H as [Ha Hb]. apply eqb_eq in Ha. apply eqb_eq in Hb. now subst.
  - intro Hin. exists (a, b). split; [exact Hin|]. simpl. now rewrite !eqb_refl.
Qed.

Lemma gap_check_all :
  forallb (fun x => forallb (gap_check x) five_columns) letters = true.
Proof. vm_compute. reflexivity. Qed.

(** X5: for a letter of the table and one of the five columns,
    [with_ending] raises [KeyError] exactly at the gaps of the table (the
    y row has no i and e, the w row no i, u and e, the row of the syllabic n
    none of the five) and returns a letter everywhere else. *)
Theorem with_ending_gaps : forall x col,
  table_letter x -> In col five_columns ->
  (In (HiraganaLetter.row x, col) column_gaps ->
   HiraganaLetter.with_ending x col = Raise KeyError) /\
  (~ In (HiraganaLetter.row x, col) column_gaps ->
   exists y, HiraganaLetter.with_ending x col = Ok y).
Proof.
  intros x col Hx Hcol. pose proof gap_check_all as Hall.
  rewrite forallb_forall in Hall.
  specialize (Hall x (table_letter_in x Hx)).
  rewrite forallb_forall in Hall. specialize (Hall col Hcol).
  unfold gap_check in Hall. rewrite <- pair_mem_In.
  destruct (HiraganaLetter.with_ending x col) as [y|e].
  - apply negb_true_iff in Hall. rewrite Hall. split; [discriminate|eauto].
  - destruct e; try discriminate. rewrite Hall. split; [reflexivity|].
    intro Hn. now contradiction Hn.
Qed.

Lemma with_ending_gaps_witness :
  HiraganaLetter.with_ending (HiraganaLetter.mk Glyph.ya (lit "y") (lit "a") None) (lit "i")
  = Raise KeyError.
Proof.
  apply (proj1 (with_ending_gaps
                  (HiraganaLetter.mk Glyph.ya (lit "y") (lit "a") None) (lit "i")
                  eq_refl ltac:(vm_compute; tauto))).
  vm_compute. tauto.
Defined.

(** ** Sound marks *)

Lemma table_letter_marks : forall x,
  table_letter x ->
  HiraganaLetter.dakuten x = None \/
  HiraganaLetter.dakuten x = Some (lit "dakuten") \/
  HiraganaLetter.dakuten x = Some (lit "handakuten").
Proof.
  intros x H. destruct (table_letter_fields x H) as (_ & _ & ->).
  destruct (mem _ _); [auto|]. destruct (mem _ _); auto.
Qed.

Lemma with_dakuten_None_ok : forall x,
  table_letter x -> exists b, with_dakuten x None = Ok b.
Proof. intros x H. each_letter H; eexists; reflexivity. Qed.

(** X6: taking the mark off a letter of the table always works: the result
    is a letter of the table without mark, in the same column, and it is
    the letter itself when the letter has no mark. *)
Theorem with_dakuten_None_total : forall x,
  table_letter x ->
  exists b, with_dakuten x None = Ok b /\
            table_letter b /\
            HiraganaLetter.dakuten b = None /\
            HiraganaLetter.ending b = HiraganaLetter.ending x /\
            (HiraganaLetter.dakuten x = None -> b = x) /\
            with_dakuten b None = Ok b.
Proof.
  intros x H. each_letter H; eexists; repeat split; discriminate.
Qed.

Lemma with_dakuten_None_total_witness :
  exists b, with_dakuten (HiraganaLetter.mk Glyph.pa (lit "p") (lit "a") (Some (lit "handakuten"))) None = Ok b /\
            table_letter b /\
            HiraganaLetter.dakuten b = None /\
            HiraganaLetter.ending b = lit "a" /\
            (Some (lit "handakuten") = None ->
             b = HiraganaLetter.mk Glyph.pa (lit "p") (lit "a") (Some (lit "handakuten"))) /\
            with_dakuten b None = Ok b.
Proof.
  exact (with_dakuten_None_total
           (HiraganaLetter.mk Glyph.pa (lit "p") (lit "a") (Some (lit "handakuten")))
           eq_refl).
Defined.

Lemma with_dakuten_None_call : forall x,
  with_dakuten_None x = with_dakuten x None.
Proof. intro x. unfold with_dakuten, with_dakuten_None. reflexivity. Qed.

(** X7: a mark other than the two strings dakuten and handakuten is
    refused with [ValueError] on every letter of the table. *)
Theorem with_dakuten_other_mark : forall x m,
  table_letter x ->
  m <> lit "dakuten" -> m <> lit "handakuten" ->
  with_dakuten x (Some m)
  = Raise (ValueError "dakuten must either be 'dakuten' or 'handakuten'").
Proof.
  intros x m Hx Hd Hh.
  assert (Ed : PyStr.eqb m (lit "dakuten") = false).
  { destruct (PyStr.eqb m (lit "dakuten")) eqn:E; [|reflexivity].
    apply eqb_eq in E. contradiction. }
  assert (Eh : PyStr.eqb m (lit "handakuten") = false).
  { destruct (PyStr.eqb m (lit "handakuten")) eqn:E; [|reflexivity].
    apply eqb_eq in E. contradiction. }
  destruct (with_dakuten_None_ok x Hx) as (b & Hb).
  unfold with_dakuten.
  assert (Hne : option_str_eqb (Some m) (HiraganaLetter.dakuten x) = false).
  { destruct (table_letter_marks x Hx) as [->|[->| ->]]; simpl; auto. }
  rewrite Hne, with_dakuten_None_call, Hb. cbn [bind]. rewrite Ed, Eh. reflexivity.
Qed.

Lemma with_dakuten_other_mark_witness :
  with_dakuten (HiraganaLetter.mk Glyph.ka (lit "k") (lit "a") None) (Some (lit "maru"))
  = Raise (ValueError "dakuten must either be 'dakuten' or 'handakuten'").
Proof.
  apply (with_dakuten_other_mark
           (HiraganaLetter.mk Glyph.ka (lit "k") (lit "a") None) (lit "maru") eq_refl);
    discriminate.
Defined.

Lemma with_dakuten_mark_cases : forall x m y,
  table_letter x -> with_dakuten x (Some m) = Ok y ->
  m = lit "dakuten" \/ m = lit "handakuten".
Proof.
  intros x m y Hx H. unfold with_dakuten in H.
  destruct (option_str_eqb (Some m) (HiraganaLetter.dakuten x)) eqn:E.
  - destruct (table_letter_marks x Hx) as [Hm|[Hm|Hm]]; rewrite Hm in E;
      simpl in E; try discriminate; apply eqb_eq in E; auto.
  - apply bind_ok in H. destruct H as (b & _ & H).
    apply bind_ok in H. destruct H as (r & H & _).
    destruct (PyStr.eqb m (lit "dakuten")) eqn:Ed; [apply eqb_eq in Ed; auto|].
    destruct (PyStr.eqb m (lit "handakuten")) eqn:Eh; [apply eqb_eq in Eh; auto|].
    discriminate.
Qed.

(** X8: when [with_dakuten] puts a mark on a letter of the table, the
    result is a letter of the table that carries that mark and keeps the
    column, and taking the mark off again gives what taking the mark off the
    first letter gives: for a letter without mark, the letter itself. *)
Theorem with_dakuten_roundtrip : forall x m y,
  table_letter x ->
  with_dakuten x (Some m) = Ok y ->
  table_letter y /\
  HiraganaLetter.dakuten y = Some m /\
  HiraganaLetter.ending y = HiraganaLetter.ending x /\
  with_dakuten y None = with_dakuten x None /\
  (HiraganaLetter.dakuten x = None -> with_dakuten y None = Ok x).
Proof.
  intros x m y Hx H.
  destruct (with_dakuten_mark_cases x m y Hx H) as [-> | ->];
    each_letter Hx; vm_compute in H; try discriminate H;
    injection H as <-; repeat split; discriminate.
Qed.

Lemma with_dakuten_roundtrip_witness :
  with_dakuten (HiraganaLetter.mk Glyph.bi (lit "b") (lit "i") (Some (lit "dakuten"))) None
  = Ok (HiraganaLetter.mk Glyph.hi (lit "h") (lit "i") None).
Proof.
  exact (proj2 (proj2 (proj2 (proj2
           (with_dakuten_roundtrip
              (HiraganaLetter.mk Glyph.hi (lit "h") (lit "i") None) (lit "dakuten")
              (HiraganaLetter.mk Glyph.bi (lit "b") (lit "i") (Some (lit "dakuten")))
              eq_refl eq_refl)))) eq_refl).
Defined.

(** On [None], the constants and strings of another value the two models
    of the method agree. *)
Lemma with_dakuten_object_of : forall x m,
  with_dakuten_object x (mark_object_of m) = with_dakuten x m.
Proof.
  intros x [d|]; [|reflexivity]. unfold mark_object_of, with_dakuten.
  destruct (PyStr.eqb d (lit "dakuten")) eqn:Ed.
  - apply eqb_eq in Ed. subst d. reflexivity.
  - destruct (PyStr.eqb d (lit "handakuten")) eqn:Eh.
    + apply eqb_eq in Eh. subst d. reflexivity.
    + unfold with_dakuten_object. cbn [mark_value].
      destruct (option_str_eqb (Some d) (HiraganaLetter.dakuten x)); [reflexivity|].
      reflexivity.
Qed.

(** X9: which letters take which mark.  With [b] the letter without mark,
    [with_dakuten] called with the constant dakuten puts the mark on exactly
    the letters whose [b] is in the k, s, t or h row, and called with the
    constant handakuten on exactly those whose [b] is in the h row; on all
    others it raises [ValueError].  A string object that is neither
    constant gives the letter back when its value is the mark the letter
    has, and is refused otherwise, also when its value is dakuten or
    handakuten. *)
Theorem with_dakuten_rows : forall x b,
  table_letter x ->
  with_dakuten_object x MarkNone = Ok b ->
  (In (HiraganaLetter.row b) unmarked_rows ->
   exists y, with_dakuten_object x MarkDakuten = Ok y) /\
  (~ In (HiraganaLetter.row b) unmarked_rows ->
   with_dakuten_object x MarkDakuten
   = Raise (ValueError "the row has no such rule")) /\
  (HiraganaLetter.row b = lit "h" ->
   exists y, with_dakuten_object x MarkHandakuten = Ok y) /\
  (HiraganaLetter.row b <> lit "h" ->
   with_dakuten_object x MarkHandakuten
   = Raise (ValueError "the row has no such rule")) /\
  (forall s, HiraganaLetter.dakuten x = Some s ->
   with_dakuten_object x (MarkOther s) = Ok x) /\
  (forall s, HiraganaLetter.dakuten x <> Some s ->
   with_dakuten_object x (MarkOther s)
   = Raise (ValueError "dakuten must either be 'dakuten' or 'handakuten'")).
Proof.
  intros x b Hx Hb.
  assert (Hsame : forall s, HiraganaLetter.dakuten x = Some s ->
            with_dakuten_object x (MarkOther s) = Ok x).
  { intros s Hs. unfold with_dakuten_object. cbn [mark_value]. rewrite Hs.
    simpl. assert (E : PyStr.eqb s s = true) by now apply eqb_eq.
    now rewrite E. }
  assert (Hother : forall s, HiraganaLetter.dakuten x <> Some s ->
            with_dakuten_object x (MarkOther s)
            = Raise (ValueError "dakuten must either be 'dakuten' or 'handakuten'")).
  { intros s Hs. destruct (with_dakuten_None_ok x Hx) as (b' & Hb').
    unfold with_dakuten_object. cbn [mark_value].
    assert (E : option_str_eqb (Some s) (HiraganaLetter.dakuten x) = false).
    { destruct (HiraganaLetter.dakuten x) as [d|] eqn:Ed; [|reflexivity]. simpl.
      destruct (PyStr.eqb s d) eqn:E; [|reflexivity].
      apply eqb_eq in E. subst d. now contradiction Hs. }
    rewrite E, with_dakuten_None_call, Hb'. reflexivity. }
  each_letter Hx; vm_compute in Hb; injection Hb as <-;
    (split; [|split; [|split; [|split; [|split; [exact (Hsame)|exact (Hother)]]]]]);
    first [ intros _; first [reflexivity | eexists; reflexivity]
          | intro Hh; exfalso;
            first [ discriminate Hh
                  | now apply Hh
                  | vm_compute in Hh; intuition discriminate
                  | apply Hh; vm_compute; tauto ] ].
Qed.

Lemma with_dakuten_rows_witness :
  (exists y, with_dakuten_object
               (HiraganaLetter.mk Glyph.bi (lit "b") (lit "i") (Some (lit "dakuten")))
               MarkHandakuten = Ok y) /\
  with_dakuten_object
    (HiraganaLetter.mk Glyph.hi (lit "h") (lit "i") None) (MarkOther (lit "dakuten"))
  = Raise (ValueError "dakuten must either be 'dakuten' or 'handakuten'").
Proof.
  split.
  - exact (proj1 (proj2 (proj2
             (with_dakuten_rows
                (HiraganaLetter.mk Glyph.bi (lit "b") (lit "i") (Some (lit "dakuten")))
                (HiraganaLetter.mk Glyph.hi (lit "h") (lit "i") None)
                eq_refl eq_refl))) eq_refl).
  - apply (proj2 (proj2 (proj2 (proj2 (proj2
             (with_dakuten_rows
                (HiraganaLetter.mk Glyph.hi (lit "h") (lit "i") None)
                (HiraganaLetter.mk Glyph.hi (lit "h") (lit "i") None)
                eq_refl eq_refl)))))).
    discriminate.
Defined.

(** ** The masu-form *)

(** X10: on a constructed request, [masu] strips the last character and
    appends, for [ICHIDAN], masu; for [GODAN], the i-column glyph of the
    row of that character and then masu, without raising; for [IRREGULAR]
    it raises [NotImplementedError]. *)
Theorem masu_form_cases : forall verb vt ai inf r,
  Inflections.new (Some verb) vt ai inf = Ok r ->
  exists stem last,
    verb = stem ++ last /\ In last nine_endings /\
    match vt with
    | ICHIDAN => Inflections.masu r = Ok (stem ++ Glyph.ma ++ Glyph.su)
    | GODAN => exists g, i_column last = Ok g /\
                         Inflections.masu r = Ok (stem ++ g ++ Glyph.ma ++ Glyph.su)
    | IRREGULAR => Inflections.masu r = Raise NotImplementedError
    end.
Proof.
  intros verb vt ai inf r H.
  destruct (new_ok_inv _ _ _ _ _ H) as (stem & c & -> & Hc & Hb & Hv).
  apply valid_ending_cases in Hc.
  exists stem, [c]. split; [reflexivity|]. split; [exact Hc|].
  unfold Inflections.masu. rewrite Hv, Hb. destruct vt.
  - now rewrite init_snoc.
  - rewrite index_last, init_snoc. cbn [bind].
    unfold nine_endings in Hc. simpl in Hc.
    decompose [or] Hc; try contradiction;
      match goal with E : _ = [c] |- _ => injection E as <- end;
      (eexists; split; reflexivity).
  - reflexivity.
Qed.

Lemma masu_form_cases_witness :
  exists stem last,
    Glyph.kanji_nomu ++ Glyph.mu = stem ++ last /\ In last nine_endings /\
    exists g, i_column last = Ok g /\
              Inflections.masu
                (Inflections.mk (Glyph.kanji_nomu ++ Glyph.mu) GODAN [] None)
              = Ok (stem ++ g ++ Glyph.ma ++ Glyph.su).
Proof.
  exact (masu_form_cases (Glyph.kanji_nomu ++ Glyph.mu) GODAN None None
           (Inflections.mk (Glyph.kanji_nomu ++ Glyph.mu) GODAN [] None) eq_refl).
Defined.

(** ** The lexer, rule by rule *)

Lemma star_hiragana : forall s,
  forallb hiragana_char (JpRE.star JpRE.hiragana_full s) = true.
Proof.
  induction s as [|c s IH]; [reflexivity|]. cbn [JpRE.star].
  destruct (JpRE.in_class JpRE.hiragana_full c) eqn:E; [|reflexivity].
  cbn [forallb]. unfold hiragana_char at 1. now rewrite E.
Qed.

Lemma star_split : forall s,
  JpRE.star JpRE.hiragana_full s
    ++ skipn (length (JpRE.star JpRE.hiragana_full s)) s = s.
Proof.
  induction s as [|c s IH]; [reflexivity|]. cbn [JpRE.star].
  destruct (JpRE.in_class JpRE.hiragana_full c); [|reflexivity].
  cbn [length skipn app]. now rewrite IH.
Qed.

Lemma star_rest : forall s,
  JpRE.match_class JpRE.hiragana_full
    (skipn (length (JpRE.star JpRE.hiragana_full s)) s) = false.
Proof.
  induction s as [|c s IH]; [reflexivity|]. cbn [JpRE.star].
  destruct (JpRE.in_class JpRE.hiragana_full c) eqn:E; [exact IH|].
  cbn [length skipn JpRE.match_class]. exact E.
Qed.

Lemma parse_loop_lexes : forall fuel text,
  (length text <= fuel)%nat ->
  exists toks, parse_loop fuel text [] = Some (Ok toks) /\ lexes text toks.
Proof.
  induction fuel as [|fuel IH]; intros text Hlen.
  - destruct text; [|simpl in Hlen; lia].
    exists []. split; [reflexivity|constructor].
  - destruct text as [|c rest].
    + exists []. split; [reflexivity|constructor].
    + simpl in Hlen. rewrite parse_loop_cons.
      destruct (is_kanji [c]) eqn:Hk.
      * destruct (IH rest) as (toks & Hp & Hl); [lia|].
        exists (Kanji [c] :: toks). rewrite parse_loop_acc, Hp.
        split; [reflexivity|now constructor].
      * destruct (N.eqb_spec c 0x5e) as [->|Hc].
        -- destruct (IH (skipn (length (JpRE.star JpRE.hiragana_full rest)) rest))
             as (toks & Hp & Hl); [rewrite length_skipn; lia|].
           exists (Furigana (JpRE.star JpRE.hiragana_full rest) :: toks).
           rewrite parse_loop_acc, Hp. split; [reflexivity|].
           rewrite <- (star_split rest) at 1.
           constructor; [apply star_hiragana|apply star_rest|exact Hl].
        -- destruct (N.eqb_spec c 0x7e) as [->|Ht];
             destruct (IH rest) as (toks & Hp & Hl); try lia.
           ++ exists (SPACE :: toks). rewrite parse_loop_acc, Hp.
              split; [reflexivity|now constructor].
           ++ exists (Str [c] :: toks). rewrite parse_loop_acc, Hp.
              split; [reflexivity|now constructor].
Qed.

Lemma parse_lexes : forall text,
  exists toks, parse text = Some (Ok toks) /\ lexes text toks.
Proof. intro text. apply parse_loop_lexes. lia. Qed.

Lemma parse_lexes_inv : forall text toks,
  parse text = Some (Ok toks) -> lexes text toks.
Proof.
  intros text toks H. destruct (parse_lexes text) as (toks' & H' & Hl).
  rewrite H in H'. now injection H' as <-.
Qed.

Lemma lexes_text : forall text toks,
  lexes text toks -> join (map token_text toks) = text.
Proof.
  induction 1; simpl; unfold join in *; simpl; try rewrite IHlexes;
    try reflexivity.
Qed.

Lemma lexes_lexed : forall text toks, lexes text toks -> Forall lexed toks.
Proof.
  induction 1; constructor; simpl; eauto.
Qed.

(** X11: the tokens [parse] returns, put back into text (a caret before a
    furigana, a tilde for the space marker), give the text that was parsed. *)
Theorem parse_lossless : forall text,
  exists toks, parse text = Some (Ok toks) /\ join (map token_text toks) = text.
Proof.
  intro text. destruct (parse_lexes text) as (toks & H & Hl).
  exists toks. split; [exact H|now apply lexes_text].
Qed.

(** X12: in what [parse] returns, a [Kanji] holds one ideograph, a
    [Furigana] holds hiragana only, and a string is one character that is
    no ideograph, no caret and no tilde. *)
Theorem parse_token_shapes : forall text,
  exists toks, parse text = Some (Ok toks) /\ Forall lexed toks.
Proof.
  intro text. destruct (parse_lexes text) as (toks & H & Hl).
  exists toks. split; [exact H|now apply (lexes_lexed text)].
Qed.

Lemma lexes_suffix : forall pre text toks,
  lexes text (pre ++ toks) -> exists t1 t2, text = t1 ++ t2 /\ lexes t2 toks.
Proof.
  induction pre as [|p pre IH]; intros text toks H.
  - exists [], text. auto.
  - simpl in H. inversion H; subst;
      match goal with Hl : lexes _ (pre ++ toks) |- _ =>
        destruct (IH _ _ Hl) as (t1 & t2 & -> & Hl2) end.
    + exists (c :: t1), t2. auto.
    + exists (0x5e :: run ++ t1), t2. split; [|exact Hl2].
      simpl. now rewrite app_assoc.
    + exists (0x7e :: t1), t2. auto.
    + exists (c :: t1), t2. auto.
Qed.

(** X13: a furigana takes all the hiragana that follow the caret: the token
    after a [Furigana] is never a plain hiragana character. *)
Theorem parse_furigana_longest : forall text pre run s post,
  parse text = Some (Ok (pre ++ Furigana run :: Str s :: post)) ->
  JpRE.match_class JpRE.hiragana_full s = false.
Proof.
  intros text pre run s post H. apply parse_lexes_inv in H.
  apply lexes_suffix in H. destruct H as (t1 & t2 & _ & H).
  inversion H as [| |run' rest toks Hrun Hrest Hl| |]; subst.
  inversion Hl; subst. exact Hrest.
Qed.

Lemma parse_furigana_longest_witness :
  JpRE.match_class JpRE.hiragana_full (lit "a") = false.
Proof.
  exact (parse_furigana_longest (lit "^" ++ Glyph.ni ++ lit "a") []
           Glyph.ni (lit "a") [] eq_refl).
Defined.

(** ** The grouper: errors *)

Lemma is_token_b_iff : forall o, is_token_b o = true <-> is_token o.
Proof. intros []; simpl; split; intro H; try discriminate; tauto. Qed.

Lemma first_bad_token : forall tokens,
  Forall is_token tokens \/
  exists pre t post, tokens = pre ++ t :: post /\ Forall is_token pre /\ ~ is_token t.
Proof.
  induction tokens as [|t tokens IH]; [left; constructor|].
  destruct (is_token_b t) eqn:E.
  - apply is_token_b_iff in E. destruct IH as [IH|(pre & t' & post & -> & Hpre & Ht)].
    + left. now constructor.
    + right. exists (t :: pre), t', post. repeat split; auto.
  - right. exists [], t, tokens. repeat split; [constructor|].
    intro H. apply is_token_b_iff in H. congruence.
Qed.

Lemma step_bad_token : forall l t,
  ~ is_token t -> Group.step l t = Raise (ValueError "invalid state").
Proof.
  intros [st gs bf] t H. unfold Group.step. simpl.
  destruct st; destruct t; simpl in H; try tauto; reflexivity.
Qed.

(** ** The grouper: what the nodes hold *)

Lemma charseq_plain : forall bf,
  Forall is_Str bf -> charseq bf = Ok (plain_chars bf).
Proof.
  induction bf as [|o bf IH]; intro H; [reflexivity|].
  inversion H as [|? ? Ho Hbf]; subst. destruct o; try contradiction.
  simpl. rewrite (IH Hbf). simpl. destruct (is_whitespace s); reflexivity.
Qed.

Lemma run_kanji_app : forall a b, run_kanji (a ++ b) = run_kanji a ++ run_kanji b.
Proof. intros. unfold run_kanji. apply flat_map_app. Qed.

Lemma run_furigana_app : forall a b,
  run_furigana (a ++ b) = run_furigana a ++ run_furigana b.
Proof. intros. unfold run_furigana. apply flat_map_app. Qed.

Lemma plain_text_app : forall a b, plain_text (a ++ b) = plain_text a ++ plain_text b.
Proof. intros. unfold plain_text. apply flat_map_app. Qed.

Lemma plain_chars_app : forall a b,
  plain_chars (a ++ b) = plain_chars a ++ plain_chars b.
Proof. intros. unfold plain_chars. apply flat_map_app. Qed.

(** Opens one turn of the loop: a goal for each state and kind of token. *)
Ltac step_cases l t H :=
  destruct l as [st gs bf]; unfold Group.step in H; simpl in H;
  destruct st; destruct t; try discriminate H;
  try (destruct (charseq bf) as [s|e] eqn:Hcs; simpl in H; [|discriminate H]);
  injection H as <-.

Lemma step_kanji_buffered : forall l t l',
  Group.step l t = Ok l' -> kanji_buffered l -> kanji_buffered l'.
Proof.
  intros l t l' H [Hb Hn]. simpl in *.
  step_cases l t H; simpl in *; split; simpl;
    try (intro E; discriminate E);
    try assumption.
  all: try (intros _; split; [discriminate|now repeat constructor]).
  all: try (intros _; destruct (Hb eq_refl) as [Hne Hk]; split;
            [apply snoc_nonempty
            |apply Forall_app; split; [assumption|now repeat constructor]]).
  all: try (apply Forall_app; split; [assumption|]).
  all: try (destruct (Hb eq_refl) as [Hne Hk]).
  all: repeat (apply Forall_cons || apply Forall_nil); simpl; try exact I;
    repeat split; eauto.
Qed.

Lemma loop_kanji_buffered : forall tokens l l',
  Group.loop l tokens = Ok l' -> kanji_buffered l -> kanji_buffered l'.
Proof.
  induction tokens as [|t tokens IH]; intros l l' H Hk.
  - simpl in H. now injection H as <-.
  - simpl in H. apply bind_ok in H. destruct H as (l1 & Hs & Hl).
    apply (IH l1 l' Hl). now apply (step_kanji_buffered l t).
Qed.

Lemma start_kanji_buffered : kanji_buffered Group.start.
Proof. split; [discriminate|constructor]. Qed.

Lemma finish_node_ok : forall l gs,
  Group.finish l = Ok gs -> kanji_buffered l -> Forall node_ok gs.
Proof.
  intros [st gs0 bf] gs Hf [Hb Hn].
  unfold Group.finish in Hf. simpl in *. destruct st.
  - now injection Hf as <-.
  - apply bind_ok in Hf. destruct Hf as (s & _ & Hf). injection Hf as <-.
    apply Forall_app. split; [assumption|repeat constructor].
  - injection Hf as <-. destruct (Hb eq_refl) as [Hne Hk].
    apply Forall_app. split; [assumption|].
    apply Forall_cons; [simpl; auto|apply Forall_nil].
Qed.

(** X14: on tokens that are strings, [Kanji], [Furigana], the space marker
    or [KanjiSequence] objects, [group] returns the nodes when no token is a
    [KanjiSequence] and raises the [ValueError] of the invalid state when
    one is; it raises nothing else.  So [group] raises on its own output as
    soon as that holds a run of kanji. *)
Theorem group_raises_iff : forall tokens,
  Forall own_object tokens ->
  ((Forall is_token tokens /\ exists gs, group tokens = Ok gs) \/
   (~ Forall is_token tokens /\ group tokens = Raise (ValueError "invalid state"))) /\
  (forall gs kanji furigana,
     group tokens = Ok gs -> In (KanjiSequence kanji furigana) gs ->
     Forall own_object gs /\ group gs = Raise (ValueError "invalid state")).
Proof.
  intros tokens _.
  assert (Hraise : forall ts, ~ Forall is_token ts ->
            group ts = Raise (ValueError "invalid state")).
  { intros ts Hts.
    destruct (first_bad_token ts) as [H|(pre & t & post & -> & Hpre & Ht)];
      [contradiction|].
    unfold group. rewrite loop_app.
    destruct (loop_ok pre Group.start Hpre) as (l & -> & _); [discriminate|].
    cbn [bind Group.loop]. now rewrite (step_bad_token l t Ht). }
  split.
  - destruct (first_bad_token tokens) as [H|(pre & t & post & -> & Hpre & Ht)].
    + left. split; [exact H|now apply group_ok].
    + right. split.
      * intro H. apply Forall_app in H. destruct H as [_ H].
        inversion H; subst. contradiction.
      * apply Hraise. intro H. apply Forall_app in H. destruct H as [_ H].
        inversion H; subst. contradiction.
  - intros gs kanji furigana Hg Hin. split.
    + assert (Hn : Forall node_ok gs).
      { unfold group in Hg. apply bind_ok in Hg. destruct Hg as (l & Hl & Hf).
        apply (finish_node_ok l gs Hf).
        apply (loop_kanji_buffered tokens Group.start l Hl).
        exact start_kanji_buffered. }
      eapply Forall_impl; [|exact Hn]. intros []; simpl; tauto.
    + apply Hraise. intro H. rewrite Forall_forall in H.
      exact (H _ Hin).
Qed.

Lemma group_raises_iff_witness :
  Forall own_object [Kanji Glyph.kanji_nichi; Furigana Glyph.ni] /\
  group [KanjiSequence [Kanji Glyph.kanji_nichi] (Some (Furigana Glyph.ni))]
  = Raise (ValueError "invalid state").
Proof.
  assert (H : Forall own_object [Kanji Glyph.kanji_nichi; Furigana Glyph.ni]).
  { apply Forall_cons; [exact I|]. apply Forall_cons; [exact I|]. apply Forall_nil. }
  split; [exact H|].
  exact (proj2 (proj2 (group_raises_iff [Kanji Glyph.kanji_nichi; Furigana Glyph.ni] H)
           [KanjiSequence [Kanji Glyph.kanji_nichi] (Some (Furigana Glyph.ni))]
           [Kanji Glyph.kanji_nichi] (Some (Furigana Glyph.ni))
           eq_refl (or_introl eq_refl))).
Defined.

(** X15: every node [group] returns is a string, the space marker, or a
    [KanjiSequence] whose kanji are [Kanji] objects, at least one, and whose
    furigana is [None] or a [Furigana]. *)
Theorem group_nodes : forall tokens gs,
  group tokens = Ok gs -> Forall node_ok gs.
Proof.
  intros tokens gs H. unfold group in H.
  apply bind_ok in H. destruct H as (l & Hl & Hf).
  apply (finish_node_ok l gs Hf).
  apply (loop_kanji_buffered tokens Group.start l Hl).
  exact start_kanji_buffered.
Qed.

Lemma group_nodes_witness :
  Forall node_ok
    [KanjiSequence [Kanji Glyph.kanji_nichi] (Some (Furigana Glyph.ni)); Str (lit "a")].
Proof.
  exact (group_nodes
           [Furigana Glyph.hi; Kanji Glyph.kanji_nichi; Furigana Glyph.ni; Str (lit "a")]
           _ eq_refl).
Defined.

(** ** The grouper: nothing but furigana and white space is lost *)

Lemma step_pending_kanji : forall l t l',
  Group.step l t = Ok l' ->
  pending_kanji l' = pending_kanji l ++ filter is_Kanji_b [t] /\
  filter is_SPACE_b (Group.groups l')
    = filter is_SPACE_b (Group.groups l) ++ filter is_SPACE_b [t].
Proof.
  intros l t l' H.
  step_cases l t H; unfold pending_kanji, buffering_kanji; simpl;
    rewrite ?run_kanji_app, ?filter_app; simpl;
    rewrite ?app_nil_r, <- ?app_assoc; simpl; rewrite ?app_nil_r; split; reflexivity.
Qed.

Lemma loop_pending_kanji : forall tokens l l',
  Group.loop l tokens = Ok l' ->
  pending_kanji l' = pending_kanji l ++ filter is_Kanji_b tokens /\
  filter is_SPACE_b (Group.groups l')
    = filter is_SPACE_b (Group.groups l) ++ filter is_SPACE_b tokens.
Proof.
  induction tokens as [|t tokens IH]; intros l l' H.
  - simpl in H. injection H as <-. simpl. now rewrite !app_nil_r.
  - simpl in H. apply bind_ok in H. destruct H as (l1 & Hs & Hl).
    destruct (IH l1 l' Hl) as [-> ->].
    destruct (step_pending_kanji l t l1 Hs) as [-> ->].
    change (t :: tokens) with ([t] ++ tokens).
    now rewrite !filter_app, !app_assoc.
Qed.

(** X16: [group] loses no kanji and no space marker: the kanji of the runs,
    in order, are the [Kanji] tokens, and the output has as many space
    markers as the input. *)
Theorem group_keeps_kanji : forall tokens gs,
  group tokens = Ok gs ->
  run_kanji gs = filter is_Kanji_b tokens /\
  filter is_SPACE_b gs = filter is_SPACE_b tokens.
Proof.
  intros tokens gs H. unfold group in H.
  apply bind_ok in H. destruct H as (l & Hl & Hf).
  destruct (loop_pending_kanji tokens Group.start l Hl) as [Hk Hs].
  simpl in Hk, Hs. rewrite <- Hk, <- Hs. clear Hk Hs Hl.
  destruct l as [st gs0 bf]. unfold Group.finish in Hf.
  unfold pending_kanji, buffering_kanji. simpl in *.
  destruct st.
  - injection Hf as <-. now rewrite app_nil_r.
  - apply bind_ok in Hf. destruct Hf as (s & _ & Hf). injection Hf as <-.
    rewrite run_kanji_app, filter_app. simpl. now rewrite !app_nil_r.
  - injection Hf as <-.
    rewrite run_kanji_app, filter_app. simpl. now rewrite !app_nil_r.
Qed.

Lemma group_keeps_kanji_witness :
  run_kanji [KanjiSequence [Kanji Glyph.kanji_nichi] None; Str (lit "a");
             KanjiSequence [Kanji Glyph.kanji_hon] None]
  = filter is_Kanji_b [Kanji Glyph.kanji_nichi; Str (lit "a"); Kanji Glyph.kanji_hon].
Proof.
  exact (proj1 (group_keeps_kanji
                  [Kanji Glyph.kanji_nichi; Str (lit "a"); Kanji Glyph.kanji_hon]
                  _ eq_refl)).
Defined.

Lemma step_attached : forall l t l',
  Group.step l t = Ok l' ->
  run_furigana (Group.groups l')
    = run_furigana (Group.groups l) ++
      match t with
      | Furigana _ => if buffering_kanji l then [t] else []
      | _ => []
      end /\
  buffering_kanji l' = is_Kanji_b t.
Proof.
  intros l t l' H.
  step_cases l t H; unfold buffering_kanji; simpl;
    rewrite ?run_furigana_app; simpl; rewrite ?app_nil_r; split; reflexivity.
Qed.

Lemma loop_attached : forall tokens l l',
  Group.loop l tokens = Ok l' ->
  run_furigana (Group.groups l')
    = run_furigana (Group.groups l) ++ attached (buffering_kanji l) tokens.
Proof.
  induction tokens as [|t tokens IH]; intros l l' H.
  - simpl in H. injection H as <-. simpl. now rewrite app_nil_r.
  - simpl in H. apply bind_ok in H. destruct H as (l1 & Hs & Hl).
    rewrite (IH l1 l' Hl). destruct (step_attached l t l1 Hs) as [-> ->].
    rewrite <- app_assoc. f_equal.
    destruct t; simpl; try reflexivity.
Qed.

(** X17: the furigana that [group] keeps are the [Furigana] tokens that come
    right after a [Kanji] token, in order; every other [Furigana] is
    dropped. *)
Theorem group_attaches_furigana : forall tokens gs,
  group tokens = Ok gs -> run_furigana gs = attached false tokens.
Proof.
  intros tokens gs H. unfold group in H.
  apply bind_ok in H. destruct H as (l & Hl & Hf).
  pose proof (loop_attached tokens Group.start l Hl) as Ha.
  change (buffering_kanji Group.start) with false in Ha.
  simpl in Ha. rewrite <- Ha. clear Ha Hl.
  destruct l as [st gs0 bf]. unfold Group.finish in Hf. simpl in *.
  destruct st.
  - now injection Hf as <-.
  - apply bind_ok in Hf. destruct Hf as (s & _ & Hf). injection Hf as <-.
    rewrite run_furigana_app. simpl. now rewrite app_nil_r.
  - injection Hf as <-. rewrite run_furigana_app. simpl. now rewrite app_nil_r.
Qed.

Lemma group_attaches_furigana_witness :
  run_furigana [KanjiSequence [Kanji Glyph.kanji_nichi] (Some (Furigana Glyph.ni));
                Str (lit "a")]
  = attached false [Furigana Glyph.hi; Kanji Glyph.kanji_nichi; Furigana Glyph.ni;
                    Str (lit "a"); Furigana Glyph.ho].
Proof.
  exact (group_attaches_furigana
           [Furigana Glyph.hi; Kanji Glyph.kanji_nichi; Furigana Glyph.ni;
            Str (lit "a"); Furigana Glyph.ho] _ eq_refl).
Defined.

Lemma step_buf_ok : forall l t l',
  Group.step l t = Ok l' -> buf_ok l -> buf_ok l'.
Proof.
  intros l t l' H Hb. unfold buf_ok in *.
  step_cases l t H; simpl in *; intro E; try discriminate E;
    try (now repeat constructor); try (now apply Hb).
  apply Forall_app. split; [now apply Hb|now repeat constructor].
Qed.

Lemma step_pending_plain : forall l t l',
  Group.step l t = Ok l' -> buf_ok l ->
  pending_plain l' = pending_plain l ++ plain_chars [t].
Proof.
  intros l t l' H Hb. unfold buf_ok in Hb.
  step_cases l t H; unfold pending_plain; simpl in *;
    try (rewrite (charseq_plain bf (Hb eq_refl)) in Hcs; injection Hcs as <-);
    rewrite ?plain_text_app, ?plain_chars_app; simpl;
    rewrite ?app_nil_r, <- ?app_assoc; simpl; rewrite ?app_nil_r; reflexivity.
Qed.

Lemma loop_pending_plain : forall tokens l l',
  Group.loop l tokens = Ok l' -> buf_ok l ->
  pending_plain l' = pending_plain l ++ plain_chars tokens /\ buf_ok l'.
Proof.
  induction tokens as [|t tokens IH]; intros l l' H Hb.
  - simpl in H. injection H as <-. simpl. now rewrite app_nil_r.
  - simpl in H. apply bind_ok in H. destruct H as (l1 & Hs & Hl).
    destruct (IH l1 l' Hl (step_buf_ok l t l1 Hs Hb)) as [-> Hb'].
    rewrite (step_pending_plain l t l1 Hs Hb).
    change (t :: tokens) with ([t] ++ tokens).
    now rewrite plain_chars_app, app_assoc.
Qed.

(** X18: the text of the string nodes of [group], joined, is the text of
    the string tokens, joined, without the tokens that start with white
    space: kanji, furigana and space markers in between cut the text into
    nodes but take nothing from it. *)
Theorem group_plain_text : forall tokens gs,
  group tokens = Ok gs -> plain_text gs = plain_chars tokens.
Proof.
  intros tokens gs H. unfold group in H.
  apply bind_ok in H. destruct H as (l & Hl & Hf).
  destruct (loop_pending_plain tokens Group.start l Hl) as [Hp Hb];
    [discriminate|].
  simpl in Hp. rewrite <- Hp. clear Hp Hl.
  destruct l as [st gs0 bf]. unfold Group.finish in Hf.
  unfold pending_plain, buf_ok in *. simpl in *.
  destruct st.
  - injection Hf as <-. now rewrite app_nil_r.
  - rewrite (charseq_plain bf (Hb eq_refl)) in Hf. injection Hf as <-.
    rewrite plain_text_app. simpl. now rewrite app_nil_r.
  - injection Hf as <-. rewrite plain_text_app. simpl. now rewrite !app_nil_r.
Qed.

Lemma group_plain_text_witness :
  plain_text [Str (lit "a"); KanjiSequence [Kanji Glyph.kanji_nichi] None; Str (lit "b")]
  = plain_chars [Str (lit "a"); Str (lit " "); Kanji Glyph.kanji_nichi; Str (lit "b")].
Proof.
  exact (group_plain_text
           [Str (lit "a"); Str (lit " "); Kanji Glyph.kanji_nichi; Str (lit "b")]
           _ eq_refl).
Defined.

(** ** The grouper at a space marker *)

Lemma step_empty_buf : forall l t l',
  Group.step l t = Ok l' -> empty_buf l -> empty_buf l'.
Proof.
  intros l t l' H Hb. unfold empty_buf in *.
  step_cases l t H; simpl in *; intro E; try discriminate E; auto.
Qed.

Lemma loop_empty_buf : forall tokens l l',
  Group.loop l tokens = Ok l' -> empty_buf l -> empty_buf l'.
Proof.
  induction tokens as [|t tokens IH]; intros l l' H Hb.
  - simpl in H. now injection H as <-.
  - simpl in H. apply bind_ok in H. destruct H as (l1 & Hs & Hl).
    apply (IH l1 l' Hl). now apply (step_empty_buf l t).
Qed.

(** The space marker flushes what is buffered, as the end of the tokens
    does, and leaves the grouper as at the start. *)
Lemma step_space_flushes : forall l,
  empty_buf l ->
  Group.step l SPACE
  = (gs <- Group.finish l ;; Ok (with_groups_before (gs ++ [SPACE]) Group.start)).
Proof.
  intros [st gs bf] Hb. unfold empty_buf in Hb. simpl in Hb.
  unfold Group.step, Group.finish, with_groups_before. simpl.
  destruct st; simpl.
  - rewrite (Hb eq_refl), !app_nil_r. reflexivity.
  - destruct (charseq bf); simpl; [|reflexivity].
    rewrite !app_nil_r, <- !app_assoc. reflexivity.
  - rewrite !app_nil_r, <- !app_assoc. reflexivity.
Qed.

Lemma step_groups_before : forall G l t,
  Group.step (with_groups_before G l) t
  = (l' <- Group.step l t ;; Ok (with_groups_before G l')).
Proof.
  intros G [st gs bf] t. unfold with_groups_before, Group.step. simpl.
  destruct st; destruct t; simpl; try reflexivity;
    try (destruct (charseq bf); simpl; [|reflexivity]);
    rewrite ?app_assoc; reflexivity.
Qed.

Lemma loop_groups_before : forall tokens G l,
  Group.loop (with_groups_before G l) tokens
  = (l' <- Group.loop l tokens ;; Ok (with_groups_before G l')).
Proof.
  induction tokens as [|t tokens IH]; intros G l; [reflexivity|].
  simpl. rewrite step_groups_before.
  destruct (Group.step l t) as [l1|e]; simpl; [apply IH|reflexivity].
Qed.

Lemma finish_groups_before : forall G l,
  Group.finish (with_groups_before G l)
  = (gs <- Group.finish l ;; Ok (G ++ gs)).
Proof.
  intros G [st gs bf]. unfold with_groups_before, Group.finish. simpl.
  destruct st; simpl; try reflexivity.
  - destruct (charseq bf); simpl; [|reflexivity]. now rewrite app_assoc.
  - now rewrite app_assoc.
Qed.

Lemma group_at_space : forall a b,
  group (a ++ SPACE :: b)
  = (ga <- group a ;; gb <- group b ;; Ok (ga ++ SPACE :: gb)).
Proof.
  intros a b. unfold group. rewrite loop_app.
  destruct (Group.loop Group.start a) as [la|e] eqn:Hla; [|reflexivity].
  cbn [bind Group.loop]. rewrite step_space_flushes.
  - destruct (Group.finish la) as [ga|e]; [|reflexivity].
    cbn [bind]. rewrite loop_groups_before.
    destruct (Group.loop Group.start b) as [lb|e]; [|reflexivity].
    cbn [bind]. rewrite finish_groups_before.
    destruct (Group.finish lb) as [gb|e]; [|reflexivity].
    cbn [bind]. now rewrite <- app_assoc.
  - apply (loop_empty_buf a Group.start la Hla). intros _. reflexivity.
Qed.

(** X19: a space marker cuts the grouping in two: the nodes of the tokens
    before it, the marker, and the nodes of the tokens after it. *)
Theorem group_space_split : forall a b ga gb,
  group a = Ok ga -> group b = Ok gb ->
  group (a ++ SPACE :: b) = Ok (ga ++ SPACE :: gb).
Proof.
  intros a b ga gb Ha Hb. rewrite group_at_space, Ha, Hb. reflexivity.
Qed.

Lemma group_space_split_witness :
  group ([Kanji Glyph.kanji_nichi] ++ SPACE :: [Furigana Glyph.ni; Str (lit "a")])
  = Ok ([KanjiSequence [Kanji Glyph.kanji_nichi] None] ++ SPACE :: [Str (lit "a")]).
Proof.
  exact (group_space_split [Kanji Glyph.kanji_nichi] [Furigana Glyph.ni; Str (lit "a")]
           _ _ eq_refl eq_refl).
Defined.

(** ** Rendering a sentence *)

Lemma kanji_list : forall ks,
  Forall is_Kanji ks -> exists chars, ks = map Kanji chars.
Proof.
  induction ks as [|k ks IH]; intro H; [now exists []|].
  inversion H as [|? ? Hk Hks]; subst. destruct k; try contradiction.
  destruct (IH Hks) as (chars & ->). now exists (character :: chars).
Qed.

Lemma render_node_ok : forall o, node_ok o -> exists s, render_obj o = Ok s.
Proof.
  intros o H. destruct o; simpl in H; try contradiction; try (eexists; reflexivity).
  destruct H as (_ & Hk & Hf). destruct (kanji_list kanji Hk) as (chars & ->).
  destruct Hf as [->|(text & ->)].
  - change (render_obj (KanjiSequence (map Kanji chars) None))
      with (body <- join_map render_obj (map Kanji chars) ;; Ok body).
    rewrite render_kanji_list. eexists. reflexivity.
  - change (render_obj (KanjiSequence (map Kanji chars) (Some (Furigana text))))
      with (body <- join_map render_obj (map Kanji chars) ;;
            text' <- attr_text (Furigana text) ;; Ok (ruby body text')).
    rewrite render_kanji_list. eexists. reflexivity.
Qed.

Lemma render_nodes_ok : forall gs,
  Forall node_ok gs -> exists s, join_map render_obj gs = Ok s.
Proof.
  induction gs as [|g gs IH]; intro H; [now exists []|].
  inversion H as [|? ? Hg Hgs]; subst.
  destruct (render_node_ok g Hg) as (s & Hs). destruct (IH Hgs) as (s' & Hs').
  exists (s ++ s'). unfold join_map in *. now rewrite Hs, Hs'.
Qed.

(** X20: [render_jp] returns markup for every text: parsing, grouping and
    rendering raise nothing on the way. *)
Theorem render_jp_total : forall text, exists html, render_jp text = Some (Ok html).
Proof.
  intro text. unfold render_jp.
  destruct (parse_loop_total (length text) text []) as (toks & Hp & Htok); [lia|].
  unfold parse. rewrite Hp. simpl app.
  destruct (group_ok toks Htok) as (gs & Hg). cbn [bind]. rewrite Hg. cbn [bind].
  assert (Hn : Forall node_ok gs).
  { unfold group in Hg. apply bind_ok in Hg. destruct Hg as (l & Hl & Hf).
    apply (finish_node_ok l gs Hf).
    apply (loop_kanji_buffered toks Group.start l Hl). exact start_kanji_buffered. }
  destruct (render_nodes_ok gs Hn) as (s & ->). now exists s.
Qed.

(** X21: the method [KanjiSequence.render] raises [AttributeError] on every
    run that [group] makes, with or without furigana: it calls [render] on
    the [Kanji] objects of the run, which have no such method. *)
Theorem render_method_on_runs : forall tokens gs kanji furigana,
  group tokens = Ok gs ->
  In (KanjiSequence kanji furigana) gs ->
  render_method (KanjiSequence kanji furigana) = Raise AttributeError.
Proof.
  intros tokens gs kanji furigana Hg Hin.
  assert (Hn : Forall node_ok gs).
  { unfold group in Hg. apply bind_ok in Hg. destruct Hg as (l & Hl & Hf).
    apply (finish_node_ok l gs Hf).
    apply (loop_kanji_buffered tokens Group.start l Hl). exact start_kanji_buffered. }
  rewrite Forall_forall in Hn. specialize (Hn _ Hin). simpl in Hn.
  destruct Hn as (Hne & Hk & _).
  destruct kanji as [|k kanji]; [contradiction|].
  inversion Hk as [|? ? Hk1 _]; subst. destruct k; try contradiction.
  reflexivity.
Qed.

Lemma render_method_on_runs_witness :
  render_method (KanjiSequence [Kanji Glyph.kanji_nichi] (Some (Furigana Glyph.ni)))
  = Raise AttributeError.
Proof.
  apply (render_method_on_runs [Kanji Glyph.kanji_nichi; Furigana Glyph.ni]
           [KanjiSequence [Kanji Glyph.kanji_nichi] (Some (Furigana Glyph.ni))]).
  - reflexivity.
  - simpl. tauto.
Defined.

(** ** A sentence with a space marker *)

Lemma hiragana_run_unique : forall run run' rest rest',
  forallb hiragana_char run = true -> forallb hiragana_char run' = true ->
  JpRE.match_class JpRE.hiragana_full rest = false ->
  JpRE.match_class JpRE.hiragana_full rest' = false ->
  run ++ rest = run' ++ rest' -> run = run' /\ rest = rest'.
Proof.
  induction run as [|c run IH]; intros run' rest rest' Hr Hr' Hs Hs' E.
  - destruct run' as [|c' run']; [auto|]. simpl in E. subst rest.
    cbn [forallb JpRE.match_class app] in Hr', Hs. apply andb_true_iff in Hr'. destruct Hr' as [Hc _].
    unfold hiragana_char in Hc. congruence.
  - destruct run' as [|c' run'].
    + simpl in E. subst rest'. cbn [forallb JpRE.match_class app] in Hr, Hs'.
      apply andb_true_iff in Hr. destruct Hr as [Hc _].
      unfold hiragana_char in Hc. congruence.
    + simpl in E. injection E as <- E. cbn [forallb] in Hr, Hr'.
      apply andb_true_iff in Hr. apply andb_true_iff in Hr'.
      destruct (IH run' rest rest') as [-> ->]; tauto.
Qed.

Lemma lexes_functional : forall text toks,
  lexes text toks -> forall toks', lexes text toks' -> toks = toks'.
Proof.
  induction 1 as [|c rest toks Hk _ IH|run rest toks Hrun Hrest _ IH
                  |rest toks _ IH|c rest toks Hk Hc Ht _ IH];
    intros toks' H'.
  - now inversion H'.
  - inversion H'; subst; try congruence.
    + f_equal. now apply IH.
    + vm_compute in Hk. discriminate.
    + vm_compute in Hk. discriminate.
  - inversion H' as [|c0 r0 t0 Hk0|run0 rest0 t0 Hrun0 Hrest0 Hl0 E0
                     | |c0 r0 t0 Hk0 Hc0]; subst.
    + vm_compute in Hk0. discriminate.
    + destruct (hiragana_run_unique run0 run rest0 rest) as [-> ->]; auto.
      f_equal. now apply IH.
    + now contradiction Hc0.
  - inversion H'; subst; try congruence.
    + match goal with Hk0 : is_kanji _ = true |- _ => vm_compute in Hk0; discriminate end.
    + f_equal. now apply IH.
  - inversion H'; subst; try congruence.
    f_equal. now apply IH.
Qed.

Lemma lexes_parse : forall text toks,
  lexes text toks -> parse text = Some (Ok toks).
Proof.
  intros text toks H. destruct (parse_lexes text) as (toks' & Hp & Hl).
  now rewrite (lexes_functional text toks H toks' Hl).
Qed.

Lemma lexes_at_tilde : forall a ta,
  lexes a ta -> forall b tb, lexes b tb ->
  lexes (a ++ 0x7e :: b) (ta ++ SPACE :: tb).
Proof.
  induction 1 as [|c rest toks Hk _ IH|run rest toks Hrun Hrest _ IH
                  |rest toks _ IH|c rest toks Hk Hc Ht _ IH];
    intros b tb Hb; simpl.
  - now constructor.
  - constructor; auto.
  - rewrite <- app_assoc. constructor; auto.
    destruct rest; [reflexivity|exact Hrest].
  - constructor; auto.
  - constructor; auto.
Qed.

(** A caret ends every run before it and starts a token of its own. *)
Lemma lexes_at_caret : forall a ta,
  lexes a ta -> forall b tb, lexes b tb ->
  JpRE.match_class JpRE.hiragana_full b = false ->
  lexes (a ++ 0x5e :: b) (ta ++ Furigana [] :: tb).
Proof.
  induction 1 as [|c rest toks Hk _ IH|run rest toks Hrun Hrest _ IH
                  |rest toks _ IH|c rest toks Hk Hc Ht _ IH];
    intros b tb Hb Hbh; simpl.
  - apply (lexes_furigana [] b tb); auto.
  - constructor; auto.
  - rewrite <- app_assoc. constructor; auto.
    destruct rest; [reflexivity|exact Hrest].
  - constructor; auto.
  - constructor; auto.
Qed.

(** C6: [parse] ends on every text, without an exception and with tokens of
    the four kinds; a caret that no hiragana follows, wherever it stands in
    the text, gives an empty [Furigana] between the tokens of what precedes
    it and the tokens of what follows; [group] raises nothing on tokens of
    the four kinds, and a [Furigana] that arrives while no kanji are
    buffered changes nothing. *)
Theorem lexer_grouper_total :
  (forall text, exists toks, parse text = Some (Ok toks) /\ Forall is_token toks) /\
  (forall pre rest, JpRE.match_class JpRE.hiragana_full rest = false ->
     exists tp tr, parse pre = Some (Ok tp) /\ parse rest = Some (Ok tr) /\
                   parse (pre ++ lit "^" ++ rest)
                   = Some (Ok (tp ++ Furigana [] :: tr))) /\
  (forall tokens, Forall is_token tokens -> exists gs, group tokens = Ok gs) /\
  (forall pre l text post,
     Group.loop Group.start pre = Ok l ->
     Group.state l <> Group.buffer_kan ->
     group (pre ++ Furigana text :: post) = group (pre ++ post)).
Proof.
  split; [|split; [|split]].
  - intro text. unfold parse.
    destruct (parse_loop_total (length text) text []) as (toks & H & Htok); [lia|].
    now exists toks.
  - intros pre rest Hrest.
    destruct (parse_lexes pre) as (tp & Hp & Lp).
    destruct (parse_lexes rest) as (tr & Hr & Lr).
    exists tp, tr. split; [exact Hp|]. split; [exact Hr|].
    apply lexes_parse. exact (lexes_at_caret pre tp Lp rest tr Lr Hrest).
  - exact group_ok.
  - intros pre l text post Hloop Hstate. unfold group.
    rewrite !loop_app, Hloop. simpl.
    now rewrite (step_furigana_dropped l text Hstate).
Qed.

Lemma lexer_grouper_total_witness :
  (exists tp tr, parse Glyph.kanji_go = Some (Ok tp) /\ parse [] = Some (Ok tr) /\
                 parse (Glyph.kanji_go ++ lit "^" ++ [])
                 = Some (Ok (tp ++ Furigana [] :: tr))) /\
  (exists gs, group [Str (lit "a"); Furigana Glyph.ni; Kanji Glyph.kanji_go] = Ok gs) /\
  group ([Str (lit "a")] ++ Furigana Glyph.ni :: [Kanji Glyph.kanji_go])
    = group ([Str (lit "a")] ++ [Kanji Glyph.kanji_go]).
Proof.
  split; [|split].
  - apply (proj1 (proj2 lexer_grouper_total) Glyph.kanji_go []). reflexivity.
  - apply (proj1 (proj2 (proj2 lexer_grouper_total))). repeat constructor.
  - apply (proj2 (proj2 (proj2 lexer_grouper_total)) [Str (lit "a")]
             (Group.mk Group.buffer_str [] [Str (lit "a")])).
    + reflexivity.
    + discriminate.
Defined.

Lemma join_map_app : forall f a b,
  join_map f (a ++ b) = (x <- join_map f a ;; y <- join_map f b ;; Ok (x ++ y)).
Proof.
  intros f a b. induction a as [|o a IH].
  - change (join_map f ([] ++ b)) with (join_map f b).
    change (join_map f []) with (@Ok str []). cbn [bind].
    destruct (join_map f b); reflexivity.
  - change (join_map f ((o :: a) ++ b))
      with (r <- f o ;; rs <- join_map f (a ++ b) ;; Ok (r ++ rs)).
    change (join_map f (o :: a))
      with (r <- f o ;; rs <- join_map f a ;; Ok (r ++ rs)).
    rewrite IH. destruct (f o); cbn [bind]; [|reflexivity].
    destruct (join_map f a); cbn [bind]; [|reflexivity].
    destruct (join_map f b); cbn [bind]; [|reflexivity].
    now rewrite app_assoc.
Qed.

Lemma render_jp_inv : forall text html,
  render_jp text = Some (Ok html) ->
  exists toks gs, lexes text toks /\ group toks = Ok gs /\
                  join_map render_obj gs = Ok html.
Proof.
  intros text html H. unfold render_jp in H.
  destruct (parse_lexes text) as (toks & Hp & Hl). rewrite Hp in H.
  cbv iota beta in H. cbn [bind] in H. injection H as H. apply bind_ok in H. destruct H as (gs & Hg & Hr).
  now exists toks, gs.
Qed.

(** X22: a tilde in the text cuts the rendering in two: the markup of the
    text before it, the non-breaking space, and the markup of the text after
    it. *)
Theorem render_jp_at_tilde : forall a b ha hb,
  render_jp a = Some (Ok ha) -> render_jp b = Some (Ok hb) ->
  render_jp (a ++ lit "~" ++ b) = Some (Ok (ha ++ lit "&nbsp;" ++ hb)).
Proof.
  intros a b ha hb Ha Hb.
  destruct (render_jp_inv a ha Ha) as (ta & ga & Hla & Hga & Hra).
  destruct (render_jp_inv b hb Hb) as (tb & gb & Hlb & Hgb & Hrb).
  unfold render_jp.
  change (a ++ lit "~" ++ b) with (a ++ 0x7e :: b).
  rewrite (lexes_parse _ _ (lexes_at_tilde a ta Hla b tb Hlb)).
  cbn [bind]. rewrite group_at_space, Hga, Hgb. cbn [bind].
  rewrite join_map_app, Hra. cbn [bind].
  change (join_map render_obj (SPACE :: gb))
    with (r <- render_obj SPACE ;; rs <- join_map render_obj gb ;; Ok (r ++ rs)).
  rewrite Hrb. reflexivity.
Qed.

Lemma render_jp_at_tilde_witness :
  render_jp (lit "a" ++ lit "~" ++ Glyph.kanji_nichi)
  = Some (Ok (lit "a" ++ lit "&nbsp;" ++ anchor Glyph.kanji_nichi)).
Proof.
  exact (render_jp_at_tilde (lit "a") Glyph.kanji_nichi _ _ eq_refl eq_refl).
Defined.

(** ** Strings: strip and split *)

Import StrMethods.

Arguments isspace : simpl never.
Arguments is_linebreak : simpl never.

Lemma lstrip_cons : forall a c b,
  isspace c = false -> lstrip (a ++ c :: b) = lstrip a ++ c :: b.
Proof.
  induction a as [|x a IH]; intros c b Hc; simpl.
  - now rewrite Hc.
  - destruct (isspace x); [now apply IH|reflexivity].
Qed.

Lemma rstrip_cons : forall a c b,
  isspace c = false -> rstrip (a ++ c :: b) = a ++ c :: rstrip b.
Proof.
  induction a as [|x a IH]; intros c b Hc; simpl.
  - destruct (rstrip b); [now rewrite Hc|reflexivity].
  - rewrite (IH c b Hc). destruct a; reflexivity.
Qed.

Lemma strip_cons : forall a c b,
  isspace c = false -> strip (a ++ c :: b) = lstrip a ++ c :: rstrip b.
Proof.
  intros a c b Hc. unfold strip.
  now rewrite lstrip_cons, rstrip_cons.
Qed.

Lemma lstrip_cases : forall s,
  lstrip s = [] \/ exists c t, lstrip s = c :: t /\ isspace c = false.
Proof.
  induction s as [|x s IH]; [now left|]. simpl.
  destruct (isspace x) eqn:E; [exact IH|].
  right. now exists x, s.
Qed.

Lemma lstrip_idem : forall s, lstrip (lstrip s) = lstrip s.
Proof.
  intro s. destruct (lstrip_cases s) as [->|(c & t & -> & Hc)]; [reflexivity|].
  simpl. now rewrite Hc.
Qed.

Lemma rstrip_idem : forall s, rstrip (rstrip s) = rstrip s.
Proof.
  induction s as [|c s IH]; [reflexivity|]. simpl.
  destruct (rstrip s) as [|r rs] eqn:E.
  - destruct (isspace c) eqn:Hc; [reflexivity|]. simpl. now rewrite Hc.
  - change (rstrip (c :: r :: rs)) with
      (match rstrip (r :: rs) with
       | [] => if isspace c then [] else [c]
       | x => c :: x
       end).
    now rewrite IH.
Qed.

Lemma rstrip_head : forall c t,
  isspace c = false -> rstrip (c :: t) = c :: rstrip t.
Proof. intros c t Hc. exact (rstrip_cons [] c t Hc). Qed.

Lemma lstrip_head : forall c t, isspace c = false -> lstrip (c :: t) = c :: t.
Proof. intros c t Hc. simpl. now rewrite Hc. Qed.

Lemma strip_idem : forall s, strip (strip s) = strip s.
Proof.
  intro s. unfold strip.
  destruct (lstrip_cases s) as [->|(c & t & -> & Hc)]; [reflexivity|].
  rewrite (rstrip_head c t Hc), (lstrip_head c _ Hc), (rstrip_head c _ Hc).
  now rewrite rstrip_idem.
Qed.

Lemma strip_lstrip : forall s, strip (lstrip s) = strip s.
Proof. intro s. unfold strip. now rewrite lstrip_idem. Qed.

Lemma lstrip_all_space : forall s,
  lstrip s = [] -> rstrip s = [].
Proof.
  induction s as [|c s IH]; [reflexivity|]. simpl.
  destruct (isspace c) eqn:Hc; [|discriminate].
  intro H. now rewrite (IH H).
Qed.

Lemma lstrip_split : forall s c t,
  lstrip s = c :: t -> exists w, s = w ++ c :: t /\ lstrip w = [].
Proof.
  induction s as [|x s IH]; intros c t H; [discriminate|]. simpl in H.
  destruct (isspace x) eqn:Hx.
  - destruct (IH c t H) as (w & -> & Hw). exists (x :: w). simpl.
    now rewrite Hx.
  - injection H as -> ->. now exists [].
Qed.

Lemma strip_rstrip : forall s, strip (rstrip s) = strip s.
Proof.
  intro s. destruct (lstrip_cases s) as [H|(c & t & H & Hc)].
  - unfold strip. rewrite (lstrip_all_space s H), H. reflexivity.
  - destruct (lstrip_split s c t H) as (w & -> & Hw).
    rewrite (rstrip_cons w c t Hc), !strip_cons by exact Hc.
    now rewrite rstrip_idem.
Qed.

Lemma split_nonempty : forall sep s, split sep s <> [].
Proof.
  intros sep [|c s]; simpl; [discriminate|].
  destruct (c =? sep); [discriminate|]. destruct (split sep s); discriminate.
Qed.

Lemma split_without : forall sep s, ~ In sep s -> split sep s = [s].
Proof.
  induction s as [|c s IH]; intro H; [reflexivity|]. simpl.
  destruct (N.eqb_spec c sep) as [->|Hc]; [exfalso; apply H; now left|].
  rewrite IH; [reflexivity|]. intro Hin. apply H. now right.
Qed.

Lemma split_first : forall sep a b,
  ~ In sep a -> split sep (a ++ sep :: b) = a :: split sep b.
Proof.
  induction a as [|c a IH]; intros b H; simpl.
  - now rewrite N.eqb_refl.
  - destruct (N.eqb_spec c sep) as [->|Hc]; [exfalso; apply H; now left|].
    rewrite IH; [reflexivity|]. intro Hin. apply H. now right.
Qed.

Lemma join_split : forall sep s, join_with [sep] (split sep s) = s.
Proof.
  induction s as [|c s IH]; [reflexivity|]. simpl.
  destruct (N.eqb_spec c sep) as [->|Hc].
  - pose proof (split_nonempty sep s) as Hne.
    destruct (split sep s) as [|p ps]; [contradiction|].
    change (join_with [sep] ([] :: p :: ps))
      with ([] ++ [sep] ++ join_with [sep] (p :: ps)).
    now rewrite IH.
  - pose proof (split_nonempty sep s) as Hne.
    destruct (split sep s) as [|p ps]; [contradiction|].
    destruct ps as [|q ps]; simpl in *; now rewrite <- IH.
Qed.

Lemma first_occurrence : forall (sep : char) s,
  ~ In sep s \/ exists a b, s = a ++ sep :: b /\ ~ In sep a.
Proof.
  induction s as [|c s IH]; [left; tauto|].
  destruct (N.eqb_spec c sep) as [->|Hc].
  - right. exists [], s. split; [reflexivity|tauto].
  - destruct IH as [H|(a & b & -> & Ha)].
    + left. intros [E|Hin]; [congruence|tauto].
    + right. exists (c :: a), b. split; [reflexivity|].
      intros [E|Hin]; [congruence|tauto].
Qed.

(** ** Sentences *)

Lemma parse_sentence_of : forall s, parse_sentence s = Ok (sentence_of s).
Proof.
  intro s. unfold parse_sentence, sentence_of.
  pose proof (split_nonempty equals_sign s) as Hne.
  destruct (split equals_sign s) as [|p [|q ps]]; [contradiction| |]; reflexivity.
Qed.

Lemma sentence_of_without : forall s,
  ~ In equals_sign s -> sentence_of s = mk_Sentence (strip s) None.
Proof. intros s H. unfold sentence_of. now rewrite split_without. Qed.

Lemma sentence_of_first : forall a b,
  ~ In equals_sign a ->
  sentence_of (a ++ equals_sign :: b) = mk_Sentence (strip a) (Some (strip b)).
Proof.
  intros a b H. unfold sentence_of. rewrite split_first by exact H.
  pose proof (split_nonempty equals_sign b) as Hne.
  pose proof (join_split equals_sign b) as Hj.
  destruct (split equals_sign b) as [|p ps]; [contradiction|].
  change (lit "=") with [equals_sign]. now rewrite Hj.
Qed.

(** X23: [parse_sentence] never raises and cuts the line at the first
    equals sign: without one, the stripped line is the Japanese text and
    there is no translation; with one, the stripped text before it is the
    Japanese text and the stripped text after it, later equals signs
    included, is the translation. *)
Theorem parse_sentence_first_equals :
  (forall s, ~ In equals_sign s ->
     parse_sentence s = Ok (mk_Sentence (strip s) None)) /\
  (forall a b, ~ In equals_sign a ->
     parse_sentence (a ++ equals_sign :: b)
     = Ok (mk_Sentence (strip a) (Some (strip b)))).
Proof.
  split.
  - intros s H. now rewrite parse_sentence_of, sentence_of_without.
  - intros a b H. now rewrite parse_sentence_of, sentence_of_first.
Qed.

Lemma parse_sentence_first_equals_witness :
  parse_sentence (lit "a =b=c")
  = Ok (mk_Sentence (strip (lit "a ")) (Some (strip (lit "b=c")))).
Proof.
  apply (proj2 parse_sentence_first_equals (lit "a ") (lit "b=c")).
  vm_compute. intuition discriminate.
Defined.

Lemma lstrip_In : forall c s, In c (lstrip s) -> In c s.
Proof.
  induction s as [|x s IH]; intro H; [exact H|]. simpl in H.
  destruct (isspace x); [right; now apply IH|exact H].
Qed.

Lemma rstrip_In : forall c s, In c (rstrip s) -> In c s.
Proof.
  induction s as [|x s IH]; intro H; [exact H|]. simpl in H.
  destruct (rstrip s) as [|r rs].
  - destruct (isspace x); [contradiction|]. destruct H as [->|[]]. now left.
  - destruct H as [->|H]; [now left|right; now apply IH].
Qed.

Lemma strip_In : forall c s, In c (strip s) -> In c s.
Proof. intros c s H. unfold strip in H. now apply lstrip_In, rstrip_In. Qed.

Lemma rstrip_snoc_space : forall s w, isspace w = true -> rstrip (s ++ [w]) = rstrip s.
Proof.
  induction s as [|x s IH]; intros w Hw; simpl.
  - now rewrite Hw.
  - now rewrite (IH w Hw).
Qed.

Lemma strip_snoc_space : forall s w, isspace w = true -> strip (s ++ [w]) = strip s.
Proof.
  intros s w Hw. rewrite <- strip_rstrip, (rstrip_snoc_space s w Hw).
  apply strip_rstrip.
Qed.

Lemma strip_cons_space : forall s w, isspace w = true -> strip (w :: s) = strip s.
Proof. intros s w Hw. unfold strip. simpl. now rewrite Hw. Qed.

Lemma equals_no_space : isspace equals_sign = false.
Proof. reflexivity. Qed.

Lemma blank_is_space : isspace 0x20 = true.
Proof. reflexivity. Qed.

Lemma sentence_of_normal : forall s, normal (sentence_of s).
Proof.
  intro s. unfold normal.
  destruct (first_occurrence equals_sign s) as [H|(a & b & -> & Ha)].
  - rewrite (sentence_of_without s H). simpl. repeat split.
    + intro Hin. apply H. now apply strip_In.
    + apply strip_idem.
    + discriminate.
  - rewrite (sentence_of_first a b Ha). simpl. repeat split.
    + intro Hin. apply Ha. now apply strip_In.
    + apply strip_idem.
    + intros t E. injection E as <-. apply strip_idem.
Qed.

Lemma render_sentence_of : forall sen,
  normal sen -> sentence_of (render_sentence sen) = sen.
Proof.
  intros [j [t|]] (Hj & Hs & Ht); unfold render_sentence; simpl in *.
  - change (j ++ 32 :: 61 :: 32 :: t) with (j ++ [0x20] ++ equals_sign :: 0x20 :: t).
    rewrite app_assoc, sentence_of_first.
    + rewrite strip_snoc_space by exact blank_is_space.
      rewrite strip_cons_space by exact blank_is_space.
      now rewrite Hs, (Ht t eq_refl).
    + intro Hin. apply in_app_or in Hin. destruct Hin as [Hin|[E|[]]];
        [now apply Hj|discriminate E].
  - rewrite (sentence_of_without j Hj), Hs. reflexivity.
Qed.

(** X24: what [parse_sentence] returns has no equals sign in the Japanese
    text and no white space around either field, and for every sentence of
    that kind parsing the text that [render_sentence] gives returns the
    sentence: in particular parsing, rendering and parsing again changes
    nothing. *)
Theorem render_parse_roundtrip :
  (forall sen, normal sen -> parse_sentence (render_sentence sen) = Ok sen) /\
  (forall line sen, parse_sentence line = Ok sen ->
     normal sen /\ parse_sentence (render_sentence sen) = Ok sen).
Proof.
  split.
  - intros sen H. now rewrite parse_sentence_of, render_sentence_of.
  - intros line sen H. rewrite parse_sentence_of in H. injection H as <-.
    pose proof (sentence_of_normal line) as Hn. split; [exact Hn|].
    now rewrite parse_sentence_of, render_sentence_of.
Qed.

Lemma render_parse_roundtrip_witness :
  parse_sentence (render_sentence (mk_Sentence (lit "a") (Some (lit "b=c"))))
  = Ok (mk_Sentence (lit "a") (Some (lit "b=c"))).
Proof.
  exact (proj2 (proj2 render_parse_roundtrip (lit " a =b=c ")
                  (mk_Sentence (lit "a") (Some (lit "b=c"))) eq_refl)).
Defined.

Lemma sentence_of_strip : forall s, sentence_of (strip s) = sentence_of s.
Proof.
  intro s. destruct (first_occurrence equals_sign s) as [H|(a & b & -> & Ha)].
  - rewrite (sentence_of_without s H), sentence_of_without.
    + now rewrite strip_idem.
    + intro Hin. apply H. now apply strip_In.
  - rewrite (strip_cons a equals_sign b equals_no_space).
    rewrite !sentence_of_first; try exact Ha.
    + now rewrite strip_lstrip, strip_rstrip.
    + intro Hin. apply Ha. now apply lstrip_In.
Qed.

(** X25: white space around a line does not matter to [parse_sentence]:
    the stripped line parses to the same sentence. *)
Theorem parse_sentence_strip : forall s,
  parse_sentence (strip s) = parse_sentence s.
Proof. intro s. now rewrite !parse_sentence_of, sentence_of_strip. Qed.

(** ** The sentences box *)

Lemma map_result_ok : forall A B (f : A -> result B) (g : A -> B) l,
  (forall x, f x = Ok (g x)) -> map_result f l = Ok (map g l).
Proof.
  intros A B f g l H. induction l as [|x l IH]; [reflexivity|].
  simpl. now rewrite H, IH.
Qed.

Lemma parse_sentence_sequence_of : forall text,
  parse_sentence_sequence text
  = Ok (map sentence_of (filter nonblank (map strip (splitlines text)))).
Proof.
  intro text. unfold parse_sentence_sequence.
  apply map_result_ok. exact parse_sentence_of.
Qed.

Lemma splitlines_no_linebreak : forall s l,
  In l (splitlines s) -> no_linebreak l.
Proof.
  assert (Hgen : forall n s, (length s <= n)%nat ->
                 forall l, In l (splitlines s) -> no_linebreak l).
  { induction n as [|n IH]; intros s Hlen l Hin.
    - destruct s; [contradiction|simpl in Hlen; lia].
    - destruct s as [|c s]; [contradiction|]. simpl in Hlen, Hin.
      destruct (is_linebreak c) eqn:Hc.
      + destruct Hin as [<-|Hin]; [intros x []|].
        destruct (c =? 0xd).
        * destruct s as [|c' s']; [contradiction|].
          destruct (c' =? 0xa).
          -- apply (IH s'); [simpl in Hlen; lia|exact Hin].
          -- apply (IH (c' :: s')); [lia|exact Hin].
        * apply (IH s); [lia|exact Hin].
      + assert (IHs : forall l', In l' (splitlines s) -> no_linebreak l')
          by (intros l' Hl'; apply (IH s); [lia|exact Hl']).
        destruct (splitlines s) as [|l0 ls].
        * destruct Hin as [<-|[]]. intros x [<-|[]]. exact Hc.
        * destruct Hin as [<-|Hin].
          -- intros x [<-|Hx]; [exact Hc|]. apply (IHs l0); [now left|exact Hx].
          -- apply IHs. now right. }
  intros s l. apply (Hgen (length s)). lia.
Qed.

Lemma splitlines_line : forall l,
  no_linebreak l -> l <> [] -> splitlines l = [l].
Proof.
  induction l as [|c l IH]; intros Hn Hne; [contradiction|]. simpl.
  rewrite (Hn c) by now left.
  destruct l as [|c' l']; [reflexivity|].
  rewrite IH; [reflexivity| |discriminate].
  intros x Hx. apply Hn. now right.
Qed.

Lemma splitlines_first : forall l rest,
  no_linebreak l -> splitlines (l ++ 0xa :: rest) = l :: splitlines rest.
Proof.
  induction l as [|c l IH]; intros rest Hn.
  - reflexivity.
  - change ((c :: l) ++ 0xa :: rest) with (c :: (l ++ 0xa :: rest)).
    cbn [splitlines]. rewrite (Hn c) by now left.
    rewrite IH; [reflexivity|]. intros x Hx. apply Hn. now right.
Qed.

Lemma splitlines_join : forall lines,
  Forall (fun l => no_linebreak l /\ l <> []) lines ->
  splitlines (join_with [0xa] lines) = lines.
Proof.
  induction lines as [|l lines IH]; intro H; [reflexivity|].
  inversion H as [|? ? [Hn Hne] Hrest]; subst.
  destruct lines as [|l' lines'].
  - simpl. now apply splitlines_line.
  - change (join_with [0xa] (l :: l' :: lines'))
      with (l ++ 0xa :: join_with [0xa] (l' :: lines')).
    rewrite (splitlines_first l _ Hn), (IH Hrest). reflexivity.
Qed.

Lemma no_linebreak_app : forall a b,
  no_linebreak a -> no_linebreak b -> no_linebreak (a ++ b).
Proof.
  intros a b Ha Hb c Hin. apply in_app_or in Hin. destruct Hin; auto.
Qed.

Lemma sentence_of_boxed : forall l,
  no_linebreak l -> strip l = l -> l <> [] -> boxed (sentence_of l).
Proof.
  intros l Hn Hs Hne. split; [apply sentence_of_normal|].
  destruct (first_occurrence equals_sign l) as [H|(a & b & -> & Ha)].
  - rewrite (sentence_of_without l H). unfold render_sentence. simpl.
    rewrite Hs. split; [exact Hn|now rewrite Hs].
  - rewrite (sentence_of_first a b Ha). unfold render_sentence. simpl. split.
    + apply no_linebreak_app.
      * intros c Hc. apply Hn. apply in_or_app. left. now apply strip_In.
      * intros c [<-|[<-|[<-|Hc]]]; try reflexivity.
        apply Hn. apply in_or_app. right. right. now apply strip_In.
    + change (strip a ++ 32 :: 61 :: 32 :: strip b)
        with (strip a ++ [0x20] ++ equals_sign :: 0x20 :: strip b).
      rewrite app_assoc, strip_cons by exact equals_no_space.
      intro E. apply app_eq_nil in E. destruct E as [_ E]. discriminate E.
Qed.

Lemma boxed_lines : forall ss,
  Forall boxed ss ->
  map sentence_of (filter nonblank (map strip (map render_sentence ss))) = ss.
Proof.
  induction ss as [|sen ss IH]; intro H; [reflexivity|].
  inversion H as [|? ? (Hn & Hl & Hb) Hrest]; subst. simpl.
  assert (E : nonblank (strip (render_sentence sen)) = true).
  { unfold nonblank. destruct (strip (render_sentence sen)); [contradiction|reflexivity]. }
  rewrite E. simpl.
  now rewrite sentence_of_strip, (render_sentence_of sen Hn), (IH Hrest).
Qed.

Lemma parsed_boxed : forall text,
  Forall boxed (map sentence_of (filter nonblank (map strip (splitlines text)))).
Proof.
  intro text. apply Forall_forall. intros sen Hin.
  apply in_map_iff in Hin. destruct Hin as (l & <- & Hin).
  apply filter_In in Hin. destruct Hin as [Hin Hnb].
  apply in_map_iff in Hin. destruct Hin as (l0 & <- & Hin0).
  apply sentence_of_boxed.
  - intros c Hc. apply (splitlines_no_linebreak text l0 Hin0). now apply strip_In.
  - apply strip_idem.
  - intro E. rewrite E in Hnb. discriminate.
Qed.

(** X26: the sentences box round trip.  The sentences parsed from a text,
    rendered one per line as the edit form does, parse to the same
    sentences. *)
Theorem sentences_box_roundtrip : forall text ss,
  parse_sentence_sequence text = Ok ss ->
  parse_sentence_sequence (sentences_box ss) = Ok ss.
Proof.
  intros text ss H. rewrite parse_sentence_sequence_of in H. injection H as <-.
  pose proof (parsed_boxed text) as Hb.
  set (ss := map sentence_of (filter nonblank (map strip (splitlines text)))) in *.
  rewrite parse_sentence_sequence_of. unfold sentences_box.
  rewrite splitlines_join.
  - now rewrite (boxed_lines ss Hb).
  - apply Forall_forall. intros l Hin. apply in_map_iff in Hin.
    destruct Hin as (sen & <- & Hin). rewrite Forall_forall in Hb.
    destruct (Hb sen Hin) as (_ & Hl & Hne). split; [exact Hl|].
    intro E. rewrite E in Hne. now apply Hne.
Qed.

Lemma sentences_box_roundtrip_witness :
  parse_sentence_sequence
    (sentences_box [mk_Sentence (lit "a") (Some (lit "b")); mk_Sentence (lit "c") None])
  = Ok [mk_Sentence (lit "a") (Some (lit "b")); mk_Sentence (lit "c") None].
Proof.
  exact (sentences_box_roundtrip
           ((lit " a=b " ++ [0xd; 0xa]) ++ [0xa] ++ lit "  " ++ [0xa] ++ lit "c")
           _ eq_refl).
Defined.

(** X27: [parse_sentence_sequence] returns on every text; each sentence
    comes from a line that is not blank, so none has both an empty Japanese
    text and no translation, and the fields hold no equals sign in the
    Japanese text, no white space around them and no line break. *)
Theorem parse_sentence_sequence_total : forall text,
  exists ss, parse_sentence_sequence text = Ok ss /\
             Forall (fun sen => normal sen /\
                                no_linebreak (render_sentence sen) /\
                                (jp sen <> [] \/ translation sen <> None)) ss.
Proof.
  intro text. eexists. split; [apply parse_sentence_sequence_of|].
  pose proof (parsed_boxed text) as Hb.
  eapply Forall_impl; [|exact Hb].
  intros sen (Hn & Hl & Hne). split; [exact Hn|]. split; [exact Hl|].
  destruct sen as [j [t|]]; [right; discriminate|left].
  intro E. simpl in E. subst j. apply Hne. reflexivity.
Qed.

(** ** The constructor of [Inflections] *)

Lemma get_raises : forall V (d : Dict.t V) k e, Dict.get d k = Raise e -> e = KeyError.
Proof.
  induction d as [|[k' v] d IH]; simpl; intros k e H.
  - congruence.
  - destruct (PyStr.eqb k' k); [discriminate|eauto].
Qed.

Lemma valid_ending_true : forall c,
  In [c] nine_endings -> contains Inflections.valid_endings [c] = true.
Proof.
  intros c H. unfold nine_endings in H. simpl in H.
  decompose [or] H; try contradiction;
    match goal with E : _ = [c] |- _ => injection E as <- end; reflexivity.
Qed.

Lemma valid_ending_false : forall c,
  ~ In [c] nine_endings -> contains Inflections.valid_endings [c] = false.
Proof.
  intros c H. destruct (contains Inflections.valid_endings [c]) eqn:E; [|reflexivity].
  exfalso. apply H. now apply valid_ending_cases.
Qed.

Lemma len_two : forall (stem : str) (c : char), stem <> [] -> (len (stem ++ [c]) <=? 1)%Z = false.
Proof.
  intros stem c H. apply Z.leb_gt. rewrite len_snoc. unfold len.
  destruct stem; [contradiction|]. simpl length. lia.
Qed.

(** X28: what the constructor accepts for the types other than
    [ICHIDAN].  A verb of at most one character is refused as too short,
    even a lone valid ending; a longer verb whose last character is not one
    of the nine endings is refused for its ending, whatever the type; a
    longer verb with one of the nine endings is accepted; and inflections
    already applied together with an inflection are refused. *)
Theorem new_decisions : forall vt ai inf,
  (forall verb, (length verb <= 1)%nat ->
     Inflections.new (Some verb) vt ai inf
     = Raise (ValueError "Verb is empty or too short")) /\
  (forall stem c, stem <> [] -> ~ In [c] nine_endings ->
     Inflections.new (Some (stem ++ [c])) vt ai inf
     = Raise (ValueError "Final kana letter is no valid verb ending")) /\
  (forall stem c, stem <> [] -> In [c] nine_endings -> vt <> ICHIDAN ->
     Inflections.new (Some (stem ++ [c])) vt None inf
     = Ok (Inflections.mk (stem ++ [c]) vt [] inf)) /\
  (forall stem c i others i', stem <> [] -> In [c] nine_endings -> vt <> ICHIDAN ->
     Inflections.new (Some (stem ++ [c])) vt (Some (i :: others)) (Some i')
     = Raise (ValueError "`inflection` must be `None` when no inflections are applied")).
Proof.
  intros vt ai inf. repeat split.
  - intros verb H. unfold Inflections.new.
    destruct (Z.leb_spec (len verb) 1) as [_|Hgt]; [reflexivity|].
    unfold len in Hgt. lia.
  - intros stem c Hs Hc. unfold Inflections.new.
    rewrite (len_two stem c Hs), index_last. cbn [bind].
    now rewrite (valid_ending_false c Hc).
  - intros stem c Hs Hc Hvt. unfold Inflections.new.
    rewrite (len_two stem c Hs), index_last. cbn [bind].
    rewrite (valid_ending_true c Hc). destruct vt; [contradiction| |]; reflexivity.
  - intros stem c i others i' Hs Hc Hvt. unfold Inflections.new.
    rewrite (len_two stem c Hs), index_last. cbn [bind].
    rewrite (valid_ending_true c Hc). destruct vt; [contradiction| |]; reflexivity.
Qed.

Lemma new_decisions_witness :
  Inflections.new (Some Glyph.ru) GODAN None None
    = Raise (ValueError "Verb is empty or too short") /\
  Inflections.new (Some (Glyph.kanji_nomu ++ Glyph.mi)) GODAN None None
    = Raise (ValueError "Final kana letter is no valid verb ending") /\
  Inflections.new (Some (Glyph.kanji_nomu ++ Glyph.mu)) GODAN None None
    = Ok (Inflections.mk (Glyph.kanji_nomu ++ Glyph.mu) GODAN [] None).
Proof.
  split; [|split].
  - apply (proj1 (new_decisions GODAN None None)). simpl. lia.
  - apply (proj1 (proj2 (new_decisions GODAN None None)) Glyph.kanji_nomu 0x307f).
    + discriminate.
    + vm_compute. intuition discriminate.
  - apply (proj1 (proj2 (proj2 (new_decisions GODAN None None))) Glyph.kanji_nomu 0x3080).
    + discriminate.
    + vm_compute. tauto.
    + discriminate.
Defined.

Lemma has_ichidan_ending_kana : forall stem k l letter,
  HiraganaLetter.new [k] = Ok letter ->
  has_ichidan_ending (stem ++ [k; l])
  = Ok (Some (mem (HiraganaLetter.ending letter) [lit "i"; lit "e"] &&
              PyStr.eqb [l] Glyph.ru)).
Proof.
  intros stem k l letter Hnew.
  destruct (new_inv _ _ Hnew) as [Hget Hc].
  apply get_In in Hget. apply by_letter_entries in Hget.
  destruct Hget as (Hkan & Hie & _).
  unfold has_ichidan_ending.
  assert (Hlen : (2 <= len (stem ++ [k; l]))%Z).
  { unfold len. rewrite length_app. simpl. lia. }
  destruct (Z.ltb_spec (len (stem ++ [k; l])) 2); [lia|].
  rewrite index_last2.
  change (stem ++ [k; l]) with (stem ++ [k] ++ [l]).
  rewrite app_assoc, index_last. unfold bind.
  rewrite Hkan, andb_false_l, Hnew, Hie. reflexivity.
Qed.

Lemma kanji_not_in_table : forall k,
  is_kanji [k] = true -> HiraganaLetter.new [k] = Raise KeyError.
Proof.
  intros k Hk. unfold HiraganaLetter.new.
  destruct (Dict.get HiraganaLetter.by_letter [k]) as [[r e]|err] eqn:E.
  - apply get_In, by_letter_entries in E. destruct E as (E & _). congruence.
  - apply get_raises in E. now subst.
Qed.

Lemma has_ichidan_ending_kanji_other : forall stem k l,
  is_kanji [k] = true -> [l] <> Glyph.ru ->
  has_ichidan_ending (stem ++ [k; l]) = Raise KeyError.
Proof.
  intros stem k l Hk Hru. unfold has_ichidan_ending.
  assert (Hlen : (2 <= len (stem ++ [k; l]))%Z).
  { unfold len. rewrite length_app. simpl. lia. }
  destruct (Z.ltb_spec (len (stem ++ [k; l])) 2); [lia|].
  rewrite index_last2.
  change (stem ++ [k; l]) with (stem ++ [k] ++ [l]).
  rewrite app_assoc, index_last. unfold bind.
  assert (E : PyStr.eqb [l] Glyph.ru = false).
  { destruct (PyStr.eqb [l] Glyph.ru) eqn:E; [|reflexivity].
    apply eqb_eq in E. contradiction. }
  rewrite Hk, E. cbn [andb]. now rewrite (kanji_not_in_table k Hk).
Qed.

Lemma snoc2_len : forall (stem : str) (k l : char),
  (len ((stem ++ [k]) ++ [l]) <=? 1)%Z = false.
Proof.
  intros. apply Z.leb_gt. rewrite !len_snoc. pose proof (len_nonneg stem). lia.
Qed.

(** X29: what the constructor does for type [ICHIDAN] on a verb that ends in
    one of the nine endings.  When a glyph of the kana table precedes the
    last character, the verb is accepted exactly if that glyph is in the i
    or e column and the last character is ru, and refused with the
    [ValueError] of the ichidan ending otherwise; when an ideograph precedes
    a last character other than ru, the [KeyError] of the table lookup
    comes out of the constructor. *)
Theorem new_ichidan_decisions : forall stem k l ai inf,
  In [l] nine_endings ->
  (forall letter, HiraganaLetter.new [k] = Ok letter ->
     (mem (HiraganaLetter.ending letter) [lit "i"; lit "e"] = true /\ [l] = Glyph.ru ->
      Inflections.new (Some (stem ++ [k; l])) ICHIDAN None inf
      = Ok (Inflections.mk (stem ++ [k; l]) ICHIDAN [] inf)) /\
     (~ (mem (HiraganaLetter.ending letter) [lit "i"; lit "e"] = true /\ [l] = Glyph.ru) ->
      Inflections.new (Some (stem ++ [k; l])) ICHIDAN ai inf
      = Raise (ValueError "verb has no ichidan ending"))) /\
  (is_kanji [k] = true -> [l] <> Glyph.ru ->
   Inflections.new (Some (stem ++ [k; l])) ICHIDAN ai inf = Raise KeyError).
Proof.
  intros stem k l ai inf Hl.
  assert (Hstart : forall a i,
    Inflections.new (Some (stem ++ [k; l])) ICHIDAN a i =
    (guard <- (h <- has_ichidan_ending (stem ++ [k; l]) ;; Ok (negb (truthy h))) ;;
     if (guard : bool) then Raise (ValueError "verb has no ichidan ending")
     else
       let applied := match a with None => [] | Some s => s end in
       if negb (length applied =? 0)%nat &&
          match i with Some _ => true | None => false end
       then Raise (ValueError "`inflection` must be `None` when no inflections are applied")
       else Ok (Inflections.mk (stem ++ [k; l]) ICHIDAN applied i))).
  { intros a i. unfold Inflections.new.
    change (stem ++ [k; l]) with (stem ++ [k] ++ [l]). rewrite app_assoc.
    rewrite snoc2_len, index_last. cbn [bind].
    rewrite (valid_ending_true l Hl). reflexivity. }
  split.
  - intros letter Hnew. split.
    + intros [Hcol Hru]. rewrite Hstart, (has_ichidan_ending_kana stem k l letter Hnew).
      rewrite Hcol, Hru. reflexivity.
    + intro Hn. rewrite Hstart, (has_ichidan_ending_kana stem k l letter Hnew).
      destruct (mem (HiraganaLetter.ending letter) [lit "i"; lit "e"]) eqn:Hcol;
        [|reflexivity].
      destruct (PyStr.eqb [l] Glyph.ru) eqn:Hru; [|reflexivity].
      apply eqb_eq in Hru. exfalso. apply Hn. auto.
  - intros Hk Hru.
    now rewrite Hstart, (has_ichidan_ending_kanji_other stem k l Hk Hru).
Qed.

Lemma new_ichidan_decisions_witness :
  Inflections.new (Some (Glyph.kanji_nomu ++ Glyph.mu)) ICHIDAN None None
  = Raise KeyError.
Proof.
  apply (proj2 (new_ichidan_decisions [] 0x98f2 0x3080 None None
                  ltac:(vm_compute; tauto)));
    [reflexivity|discriminate].
Defined.
